(** * AI-Tokenizer: the tokenization heuristic of [src/App.js] and the
      network-backed variant of [Frontend/App.js]

    The development embeds the two [tokenizeText] functions of the
    repository.  JavaScript strings are sequences of UTF-16 code units,
    numbers that only ever hold small integers (token ids, lengths) are
    [Z], and the built-ins the functions call ([String.prototype.trim],
    [split] with a regular expression, [slice], [Math.ceil],
    [Array.prototype.filter], [forEach], [push]) are written out after
    ECMA-262. *)

From Stdlib Require Import String Ascii.
From Stdlib Require Import List ZArith NArith Lia Bool Arith Sorted.
Import ListNotations.

Set Implicit Arguments.
Set Warnings "-register-all".

(* ===================================================================== *)
(** ** Strings *)
(* ===================================================================== *)

(** A JavaScript string: its UTF-16 code units, in order. *)
Definition jsstring := list N.

(** An ASCII literal of the source, as a JavaScript string. *)
Definition lit (s : string) : jsstring :=
  map N_of_ascii (list_ascii_of_string s).

(** [WhiteSpace] and [LineTerminator] of ECMA-262: the code units removed
    by [trim] and matched by the class escape [\s]. *)
Definition isWhiteSpace (c : N) : bool :=
  ((c =? 9) || (c =? 10) || (c =? 11) || (c =? 12) || (c =? 13)
   || (c =? 32) || (c =? 160) || (c =? 5760)
   || ((8192 <=? c) && (c <=? 8202))
   || (c =? 8232) || (c =? 8233) || (c =? 8239) || (c =? 8287)
   || (c =? 12288) || (c =? 65279))%N.

(** The character class [[.,!?;:]]. *)
Definition isPunctuation (c : N) : bool :=
  ((c =? 46) || (c =? 44) || (c =? 33) || (c =? 63) || (c =? 59)
   || (c =? 58))%N.

(** The longest prefix whose code units all satisfy [f], and what is
    left after it. *)
Fixpoint takeWhile (f : N -> bool) (s : jsstring) : jsstring :=
  match s with
  | [] => []
  | c :: s' => if f c then c :: takeWhile f s' else []
  end.

Fixpoint dropWhile (f : N -> bool) (s : jsstring) : jsstring :=
  match s with
  | [] => []
  | c :: s' => if f c then dropWhile f s' else s
  end.

(** [TrimString(S, start+end)]. *)
Definition trimStart (s : jsstring) : jsstring := dropWhile isWhiteSpace s.
Definition trimEnd (s : jsstring) : jsstring :=
  rev (dropWhile isWhiteSpace (rev s)).
Definition trim (s : jsstring) : jsstring := trimEnd (trimStart s).

(** The code units of [S] from index [p] inclusive to [q] exclusive. *)
Definition substring (S : jsstring) (p q : nat) : jsstring :=
  firstn (q - p) (skipn p S).

(** [String.prototype.slice(start, end)] on integer arguments; an absent
    [end] is the length.  Negative indices count from the end. *)
Definition slice (S : jsstring) (start : Z) (finish : option Z) : jsstring :=
  let len := Z.of_nat (length S) in
  let clamp (i : Z) := if (i <? 0)%Z then Z.max (len + i) 0 else Z.min i len in
  let from := clamp start in
  let to := match finish with Some e => clamp e | None => len end in
  substring S (Z.to_nat from) (Z.to_nat (Z.max from to)).

(** [Math.ceil(a / b)] for an integer [a] and a positive integer [b]: the
    quotient of two integers below 2^53 is rounded correctly and its
    ceiling is the least integer not below the exact quotient. *)
Definition Math_ceil_div (a b : Z) : Z := (- ((- a) / b))%Z.

(* ===================================================================== *)
(** ** Values and completions *)
(* ===================================================================== *)

(** An IEEE-754 double as sign, mantissa and exponent; only its
    truthiness is ever inspected. *)
Inductive number : Type :=
| NaN
| Infinity (negative : bool)
| Finite (negative : bool) (mantissa : N) (exponent : Z).

(** The values that reach the functions: primitives and the data that
    [JSON.parse] builds. *)
Inductive value : Type :=
| VUndefined
| VNull
| VBoolean (b : bool)
| VNumber (n : number)
| VString (s : jsstring)
| VArray (elems : list value)
| VObject (props : list (jsstring * value)).

Inductive error : Type :=
| TypeError
| SyntaxError
| NetworkError
| ErrorMsg (msg : string).

(** The outcome of evaluating a function body: a value, a thrown error,
    or a loop that did not finish within its bound. *)
Inductive completion (A : Type) : Type :=
| Normal (a : A)
| Throw (e : error)
| Diverge.

Arguments Throw {A} e.
Arguments Diverge {A}.

Definition bind {A B} (c : completion A) (k : A -> completion B)
  : completion B :=
  match c with
  | Normal a => k a
  | Throw e => Throw e
  | Diverge => Diverge
  end.

Declare Scope completion_scope.
Delimit Scope completion_scope with completion.
Notation "x <- c ;; k" := (bind c (fun x => k))
  (at level 61, c at next level, right associativity) : completion_scope.

(** [ToBoolean]. *)
Definition ToBoolean (v : value) : bool :=
  match v with
  | VUndefined | VNull => false
  | VBoolean b => b
  | VNumber NaN => false
  | VNumber (Infinity _) => true
  | VNumber (Finite _ m _) => negb (m =? 0)%N
  | VString s => negb (Nat.eqb (length s) 0)
  | VArray _ | VObject _ => true
  end.

Definition jsstring_eqb (a b : jsstring) : bool :=
  if list_eq_dec N.eq_dec a b then true else false.

(** [v === "..."] against a string literal: true exactly for the string
    with the same code units. *)
Definition strict_equals_lit (v : value) (l : jsstring) : bool :=
  match v with
  | VString s => jsstring_eqb s l
  | _ => false
  end.

(** Calling a [String.prototype] method on [v]: on a string the method
    runs; [undefined] and [null] have no properties and the other values
    modelled here have no callable property of that name, so the call
    throws a [TypeError]. *)
Definition call_string_method {A} (v : value) (method : jsstring -> completion A)
  : completion A :=
  match v with
  | VString s => method s
  | _ => Throw TypeError
  end.

(* ===================================================================== *)
(** ** Regular expressions and [split] *)
(* ===================================================================== *)

(** A regular expression as its sticky matcher: [m S q] tries to match
    at index [q] of [S] and returns the end index of the match with the
    texts of its capture groups. *)
Definition matcher := jsstring -> nat -> option (nat * list jsstring).

(** [[...]]: one code unit of the class. *)
Definition m_class (f : N -> bool) : matcher := fun S q =>
  match skipn q S with
  | c :: _ => if f c then Some (q + 1, []) else None
  | [] => None
  end.

(** [[...]+] at the end of a pattern: greedy, the longest non-empty run
    of code units of the class. *)
Definition m_plus (f : N -> bool) : matcher := fun S q =>
  match length (takeWhile f (skipn q S)) with
  | O => None
  | n => Some (q + n, [])
  end.

(** [a|b] at the end of a pattern: the left alternative if it matches,
    else the right one. *)
Definition m_alt (a b : matcher) : matcher := fun S q =>
  match a S q with
  | Some r => Some r
  | None => b S q
  end.

(** [(a)]: the text matched by [a] becomes the first capture. *)
Definition m_group (a : matcher) : matcher := fun S q =>
  match a S q with
  | Some (e, caps) => Some (e, substring S q e :: caps)
  | None => None
  end.

(** [/\s+/] *)
Definition re_whitespace : matcher := m_plus isWhiteSpace.

(** [/(\s+|[.,!?;:])/] *)
Definition re_separator : matcher :=
  m_group (m_alt (m_plus isWhiteSpace) (m_class isPunctuation)).

(** The loop of [RegExp.prototype[@@split]] without a limit: [p] is the
    start of the pending fragment, [q] the index tried next, [A] the
    result so far.  [fuel] bounds the number of iterations. *)
Fixpoint split_loop (rx : matcher) (fuel : nat) (S : jsstring) (p q : nat)
  (A : list jsstring) : completion (list jsstring) :=
  match fuel with
  | O => Diverge
  | Datatypes.S fuel' =>
      if q <? length S then
        match rx S q with
        | None => split_loop rx fuel' S p (q + 1) A
        | Some (lastIndex, caps) =>
            let e := Nat.min lastIndex (length S) in
            if e =? p then split_loop rx fuel' S p (q + 1) A
            else split_loop rx fuel' S e e (A ++ [substring S p q] ++ caps)
        end
      else Normal (A ++ [substring S p (length S)])
  end.

(** [S.split(rx)]. *)
Definition split (rx : matcher) (S : jsstring) : completion (list jsstring) :=
  match S with
  | [] => match rx S 0 with
          | Some _ => Normal []
          | None => Normal [S]
          end
  | _ => split_loop rx (2 * length S + 2) S 0 0 []
  end.

(* ===================================================================== *)
(** ** [src/App.js]: the in-browser tokenizer *)
(* ===================================================================== *)

Local Open Scope completion_scope.

(** A token object [{ id, text }]. *)
Record Token : Type := mkToken { id : Z; text : jsstring }.

Module Local.

(** The two locals [tokenizedResult] and [tokenId] that the callbacks of
    [forEach] update. *)
Record locals : Type :=
  mkLocals { tokenizedResult : list Token; tokenId : Z }.

(** [tokenizedResult.push({ id: tokenId++, text: t })]. *)
Definition push_token (t : jsstring) (st : locals) : locals :=
  {| tokenizedResult := tokenizedResult st ++ [mkToken (tokenId st) t];
     tokenId := (tokenId st + 1)%Z |}.

(** [xs.forEach(f)] where [f] only updates the locals. *)
Definition forEach {A} (xs : list A) (f : A -> locals -> locals)
  (st : locals) : locals :=
  fold_left (fun st x => f x st) xs st.

(** The callback of [words.forEach] in the ["Claude-3"] branch. *)
Definition claude_word (word : jsstring) (st : locals) : locals :=
  if (4 <? Z.of_nat (length word))%Z then
    let mid := Math_ceil_div (Z.of_nat (length word)) 2 in
    let st := push_token (slice word 0 (Some mid)) st in
    push_token (slice word mid None) st
  else push_token word st.

(** The callback of [parts.forEach] in the other branch. *)
Definition gpt_part (part : jsstring) (st : locals) : locals :=
  if ToBoolean (VString (trim part)) then push_token part st else st.

Definition tokenizeText (inputText model : value) : completion (list Token) :=
  trimmed <- call_string_method inputText (fun s => Normal (trim s)) ;;
  if negb (ToBoolean (VString trimmed)) then Normal []
  else
    let st := {| tokenizedResult := []; tokenId := 1 |} in
    if strict_equals_lit model (lit "Claude-3") then
      words <- call_string_method inputText (split re_whitespace) ;;
      Normal (tokenizedResult (forEach words claude_word st))
    else
      pieces <- call_string_method inputText (split re_separator) ;;
      let parts := filter (fun part => 0 <? length part) pieces in
      Normal (tokenizedResult (forEach parts gpt_part st)).

End Local.

(* ===================================================================== *)
(** ** [Frontend/App.js]: the network-backed tokenizer *)
(* ===================================================================== *)

Module Frontend.

(** What the function can change: the [loading] flag of the component
    (through [setLoading]) and the console. *)
Record world : Type :=
  mkWorld { loading : bool; console : list (jsstring * error) }.

(** An HTTP request as [fetch] receives it. *)
Record request : Type :=
  mkRequest { url : jsstring;
              method : jsstring;
              headers : list (jsstring * jsstring);
              body : jsstring }.

(** A [Response]: its [ok] flag and how the promise of [json()] settles. *)
Record response : Type :=
  mkResponse { ok : bool; json : completion value }.

(** A computation of the async function body: it reads and updates the
    world and settles as a completion ([Normal] fulfils the promise,
    [Throw] rejects it, [Diverge] leaves it pending). *)
Definition M (A : Type) : Type := world -> completion A * world.

Definition ret {A} (a : A) : M A := fun w => (Normal a, w).
Definition throw {A} (e : error) : M A := fun w => (Throw e, w).
Definition await {A} (c : completion A) : M A := fun w => (c, w).

Definition mbind {A B} (c : M A) (k : A -> M B) : M B := fun w =>
  match c w with
  | (Normal a, w') => k a w'
  | (Throw e, w') => (Throw e, w')
  | (Diverge, w') => (Diverge, w')
  end.

Declare Scope world_scope.
Delimit Scope world_scope with world.
Notation "x <~ c ;; k" := (mbind c (fun x => k))
  (at level 61, c at next level, right associativity) : world_scope.
Notation "c ;;; k" := (mbind c (fun _ => k))
  (at level 61, right associativity) : world_scope.
Local Open Scope world_scope.

(** [try { body } catch (error) { handler }] *)
Definition try_catch {A} (body : M A) (handler : error -> M A) : M A :=
  fun w =>
    match body w with
    | (Throw e, w') => handler e w'
    | r => r
    end.

(** [try { body } finally { fin }]: [fin] runs however [body] completes
    and only replaces the completion when it is abrupt itself. *)
Definition try_finally {A} (body : M A) (fin : M unit) : M A :=
  fun w =>
    match body w with
    | (Diverge, w') => (Diverge, w')
    | (r, w') =>
        match fin w' with
        | (Normal _, w'') => (r, w'')
        | (Throw e, w'') => (Throw e, w'')
        | (Diverge, w'') => (Diverge, w'')
        end
    end.

Definition setLoading (b : bool) : M unit := fun w =>
  (Normal tt, {| loading := b; console := console w |}).

Definition console_error (msg : jsstring) (e : error) : M unit := fun w =>
  (Normal tt, {| loading := loading w; console := console w ++ [(msg, e)] |}).

(** [data.tokens]: [undefined] and [null] have no properties; an object
    built by [JSON.parse] yields its own property of that name (one entry
    per key) or [undefined]; no other value has a property [tokens]. *)
Definition get_tokens (data : value) : completion value :=
  match data with
  | VUndefined | VNull => Throw TypeError
  | VObject props =>
      match find (fun kv => jsstring_eqb (fst kv) (lit "tokens")) props with
      | Some kv => Normal (snd kv)
      | None => Normal VUndefined
      end
  | _ => Normal VUndefined
  end.

(** [a || b] *)
Definition logical_or (a b : value) : value := if ToBoolean a then a else b.

Definition API_BASE_URL : jsstring := lit "https://ai-tokenizer-hge5.onrender.com".

Section Environment.

(** [String.prototype.toLowerCase] and [JSON.stringify] depend on the
    Unicode case tables and on the escaping rules; the remote end is
    [fetch].  The function is embedded over all three. *)
Variable toLowerCase : jsstring -> jsstring.
Variable JSON_stringify : value -> jsstring.
Variable fetch : request -> completion response.

(** The request built for [inputText] and the lowered model name. *)
Definition tokenize_request (inputText : value) (lowered : jsstring) : request :=
  {| url := API_BASE_URL ++ lit "/api/tokenize";
     method := lit "POST";
     headers := [(lit "Content-Type", lit "application/json")];
     body := JSON_stringify
               (VObject [(lit "text", inputText);
                         (lit "model", VString lowered);
                         (lit "strategy", VString (lit "default"))]) |}.

Definition tokenizeText (inputText model : value) : M value :=
  trimmed <~ await (call_string_method inputText (fun s => Normal (trim s))) ;;
  if negb (ToBoolean (VString trimmed)) then ret (VArray [])
  else
    setLoading true ;;;
    try_finally
      (try_catch
         (lowered <~ await (call_string_method model
                              (fun m => Normal (toLowerCase m))) ;;
          response <~ await (fetch (tokenize_request inputText lowered)) ;;
          if negb (ok response) then throw (ErrorMsg "Failed to tokenize text")
          else
            data <~ await (json response) ;;
            tokens <~ await (get_tokens data) ;;
            ret (logical_or tokens (VArray [])))
         (fun error =>
            console_error (lit "Error tokenizing text:") error ;;;
            ret (VArray [])))
      (setLoading false).

End Environment.

(** The parsed body is an object with an own property [tokens]. *)
Definition has_tokens_field (data : value) : bool :=
  match data with
  | VObject props => existsb (fun kv => jsstring_eqb (fst kv) (lit "tokens")) props
  | _ => false
  end.

(** The remote call failed: [fetch] rejected (network error), the
    response is not ok, or its body is not JSON with a [tokens] field. *)
Definition call_failed (r : completion response) : bool :=
  match r with
  | Throw _ => true
  | Diverge => false
  | Normal resp =>
      negb (ok resp)
      || match json resp with
         | Normal data => negb (has_tokens_field data)
         | Throw _ => true
         | Diverge => false
         end
  end.

End Frontend.

(* ===================================================================== *)
(** ** [src/App.js]: the component around the tokenizer *)
(* ===================================================================== *)

Module App.

Definition models : list jsstring :=
  [lit "GPT-4"; lit "GPT-3.5-Turbo"; lit "GPT-4-Turbo"; lit "Claude-3"].

Definition examples : list jsstring :=
  [lit "Hello, how are you today?";
   lit "The quick brown fox jumps over the lazy dog.";
   lit "Artificial intelligence is transforming the world."].

(** [x < y] on strings: the first differing code unit decides, and a
    proper prefix is smaller. *)
Fixpoint string_lt (x y : jsstring) : bool :=
  match x, y with
  | _, [] => false
  | [], _ :: _ => true
  | a :: x', b :: y' =>
      if (a <? b)%N then true
      else if (b <? a)%N then false
      else string_lt x' y'
  end.

(** [[...new Set(xs)]]: the distinct strings of [xs] in the order of
    their first occurrence. *)
Definition Set_values (xs : list jsstring) : list jsstring :=
  fold_left (fun seen x =>
               if existsb (jsstring_eqb x) seen then seen else seen ++ [x])
            xs [].

(** [xs.sort()] on strings, with the default comparison [string_lt].
    The order of the comparisons is left to the engine; the result is
    the stable sorted arrangement, here built by insertion. *)
Fixpoint sort_insert (x : jsstring) (sorted : list jsstring) : list jsstring :=
  match sorted with
  | [] => [x]
  | y :: rest =>
      if string_lt x y then x :: y :: rest else y :: sort_insert x rest
  end.

Definition Array_sort (xs : list jsstring) : list jsstring :=
  fold_left (fun sorted x => sort_insert x sorted) xs [].

(** The values derived from the state at each render. *)
Definition tokenCount (tokens : list Token) : nat := length tokens.
Definition charCount (text : jsstring) : nat := length text.
Definition tokenIds (tokens : list Token) : list Z := map id tokens.
Definition vocabulary (tokens : list Token) : list jsstring :=
  Array_sort (Set_values (map text tokens)).

(** The four [useState] cells. *)
Record state : Type :=
  mkState { text : jsstring;
            selectedModel : jsstring;
            showText : bool;
            tokens : list Token }.

Definition setText (v : jsstring) (st : state) : state :=
  {| text := v; selectedModel := selectedModel st;
     showText := showText st; tokens := tokens st |}.
Definition setSelectedModel (v : jsstring) (st : state) : state :=
  {| text := text st; selectedModel := v;
     showText := showText st; tokens := tokens st |}.
Definition setShowText (b : bool) (st : state) : state :=
  {| text := text st; selectedModel := selectedModel st;
     showText := b; tokens := tokens st |}.
Definition setTokens (toks : list Token) (st : state) : state :=
  {| text := text st; selectedModel := selectedModel st;
     showText := showText st; tokens := toks |}.

Definition handleClear (st : state) : state := setTokens [] (setText [] st).

Definition handleExampleClick (example : jsstring) (st : state) : state :=
  setText example st.

(** What the user can do: type in the textarea, press Clear, press the
    button of the example at [index], tick the checkbox, pick a model. *)
Inductive event : Type :=
| ChangeText (v : jsstring)
| ClickClear
| ClickExample (index : nat)
| ToggleShowText (checked : bool)
| SelectModel (v : jsstring).

(** The handler that the element runs for an event.  There is a button
    for each entry of [examples] and for no other index. *)
Definition handle (ev : event) (st : state) : state :=
  match ev with
  | ChangeText v => setText v st
  | ClickClear => handleClear st
  | ClickExample index =>
      match nth_error examples index with
      | Some example => handleExampleClick example st
      | None => st
      end
  | ToggleShowText checked => setShowText checked st
  | SelectModel v => setSelectedModel v st
  end.

(** The body of [useEffect]. *)
Definition effect (st : state) : completion state :=
  newTokens <- Local.tokenizeText (VString (text st))
                                  (VString (selectedModel st)) ;;
  Normal (setTokens newTokens st).

(** The dependency array [[text, selectedModel]] differs from the one of
    the previous render. *)
Definition deps_changed (prev next : state) : bool :=
  negb (jsstring_eqb (text prev) (text next))
  || negb (jsstring_eqb (selectedModel prev) (selectedModel next)).

(** One event: the state updates of the handler are applied together,
    the component renders, and the effect runs when a dependency
    changed. *)
Definition step (st : state) (ev : event) : completion state :=
  let st' := handle ev st in
  if deps_changed st st' then effect st' else Normal st'.

(** The first render with the initial values of [useState], after which
    the effect runs once. *)
Definition mount : completion state :=
  effect {| text := []; selectedModel := lit "GPT-4";
            showText := true; tokens := [] |}.

Fixpoint run (events : list event) (st : state) : completion state :=
  match events with
  | [] => Normal st
  | ev :: rest => st' <- step st ev ;; run rest st'
  end.

(** The component from its mount through a sequence of events. *)
Definition session (events : list event) : completion state :=
  st <- mount ;; run events st.

End App.

(* ===================================================================== *)
(** ** Vocabulary of the properties *)
(* ===================================================================== *)

(** [t] occurs in [s] as a contiguous run of code units. *)
Definition is_substring (t s : jsstring) : Prop :=
  exists pre post, s = pre ++ t ++ post.

(** Every match of [rx] on [S] consumes at least one code unit and ends
    inside [S]. *)
Definition progressive (rx : matcher) (S : jsstring) : Prop :=
  forall q e caps, rx S q = Some (e, caps) -> q < e <= length S.

(** The captures of [rx] on [S] are taken from [S]. *)
Definition captures_within (rx : matcher) (S : jsstring) : Prop :=
  forall q e caps, rx S q = Some (e, caps) ->
    Forall (fun t => is_substring t S) caps.

(** The model name that selects the aggressive strategy. *)
Definition Claude3 : value := VString (lit "Claude-3").

(** The locals at the start of a run. *)
Definition initial : Local.locals :=
  {| Local.tokenizedResult := []; Local.tokenId := 1 |}.

(** Pushing the texts [ts] one after the other. *)
Definition push_all (ts : list jsstring) (st : Local.locals) : Local.locals :=
  fold_left (fun st t => Local.push_token t st) ts st.

(** The texts that the ["Claude-3"] callback pushes for one word. *)
Definition claude_texts (word : jsstring) : list jsstring :=
  if (4 <? Z.of_nat (length word))%Z then
    let mid := Math_ceil_div (Z.of_nat (length word)) 2 in
    [slice word 0 (Some mid); slice word mid None]
  else [word].

(** The texts that the other callback pushes for one part. *)
Definition gpt_texts (part : jsstring) : list jsstring :=
  if ToBoolean (VString (trim part)) then [part] else [].

(** A string without code units other than white space. *)
Definition whitespace_only (s : jsstring) : bool := forallb isWhiteSpace s.

(** A string without any white space. *)
Definition whitespace_free (s : jsstring) : bool :=
  forallb (fun c => negb (isWhiteSpace c)) s.

(** A piece that is white space only, or free of white space. *)
Definition unmixed (t : jsstring) : Prop :=
  whitespace_only t = true \/ whitespace_free t = true.

(** The locals number the tokens pushed so far 1, 2, ... and [tokenId]
    is the next number. *)
Definition well_numbered (st : Local.locals) : Prop :=
  map id (Local.tokenizedResult st)
  = map Z.of_nat (seq 1 (length (Local.tokenizedResult st))) /\
  Local.tokenId st = (Z.of_nat (length (Local.tokenizedResult st)) + 1)%Z.

(** The code units of [s] that are not white space, in order. *)
Definition strip_whitespace (s : jsstring) : jsstring :=
  filter (fun c => negb (isWhiteSpace c)) s.

(** What is pushed for a pending fragment: nothing when it is empty. *)
Definition flush (cur : jsstring) : list jsstring :=
  match cur with
  | [] => []
  | _ => [cur]
  end.

(** A reference scanner for the punctuation-based strategy: one pass
    over the code units, [cur] being the fragment read since the last
    separator.  White space ends the fragment, a punctuation mark ends
    it and is a text of its own. *)
Fixpoint scan_reference (cur s : jsstring) : list jsstring :=
  match s with
  | [] => flush cur
  | c :: r =>
      if isWhiteSpace c then flush cur ++ scan_reference [] r
      else if isPunctuation c then flush cur ++ [c] :: scan_reference [] r
      else scan_reference (cur ++ [c]) r
  end.

(** A string without any punctuation mark of the pattern. *)
Definition punctuation_free (s : jsstring) : bool :=
  forallb (fun c => negb (isPunctuation c)) s.

(** A text that is one punctuation mark. *)
Definition is_punctuation_token (t : jsstring) : bool :=
  match t with
  | [c] => isPunctuation c
  | _ => false
  end.

(** The number of tokens that the ["Claude-3"] callback pushes for the
    words [ws]. *)
Definition claude_count (ws : list jsstring) : nat :=
  length (flat_map claude_texts ws).

(** The tokens in the state of the component are those of the text and
    the model in it. *)
Definition in_sync (st : App.state) : Prop :=
  Local.tokenizeText (VString (App.text st)) (VString (App.selectedModel st))
  = Normal (App.tokens st).

(** The message that the network-backed variant logs with an error. *)
Definition error_message : jsstring := lit "Error tokenizing text:".

(* ===================================================================== *)
(** ** Facts about strings *)
(* ===================================================================== *)

Lemma firstn_app_skipn (a b : nat) (X : jsstring) :
  firstn a X ++ firstn b (skipn a X) = firstn (a + b) X.
Proof.
  revert X; induction a as [|a IH]; intros X; simpl.
  - reflexivity.
  - destruct X as [|c X]; simpl.
    + now rewrite firstn_nil.
    + now rewrite IH.
Qed.

Lemma substring_app (S : jsstring) (p q r : nat) :
  p <= q <= r ->
  substring S p q ++ substring S q r = substring S p r.
Proof.
  intros [Hpq Hqr]. unfold substring.
  replace (skipn q S) with (skipn (q - p) (skipn p S))
    by (rewrite skipn_skipn; f_equal; lia).
  rewrite firstn_app_skipn. f_equal. lia.
Qed.

Lemma substring_prefix (S : jsstring) (p : nat) :
  substring S 0 p = firstn p S.
Proof. unfold substring. simpl. now rewrite Nat.sub_0_r. Qed.

Lemma substring_whole (S : jsstring) : substring S 0 (length S) = S.
Proof. rewrite substring_prefix. apply firstn_all. Qed.

Lemma substring_empty (S : jsstring) (p : nat) : substring S p p = [].
Proof. unfold substring. now rewrite Nat.sub_diag. Qed.

Lemma substring_is_substring (S : jsstring) (p q : nat) :
  is_substring (substring S p q) S.
Proof.
  exists (firstn p S), (skipn (q - p) (skipn p S)).
  unfold substring. now rewrite !firstn_skipn.
Qed.

Lemma is_substring_refl (s : jsstring) : is_substring s s.
Proof. exists [], []. now rewrite app_nil_r. Qed.

Lemma is_substring_trans (a b c : jsstring) :
  is_substring a b -> is_substring b c -> is_substring a c.
Proof.
  intros (p1 & q1 & ->) (p2 & q2 & ->).
  exists (p2 ++ p1), (q1 ++ q2). now rewrite <- !app_assoc.
Qed.

Lemma is_substring_concat (L : list jsstring) (t : jsstring) :
  In t L -> is_substring t (concat L).
Proof.
  intros Hin. apply in_split in Hin. destruct Hin as (l1 & l2 & ->).
  exists (concat l1), (concat l2). now rewrite concat_app.
Qed.

Lemma slice_is_substring (s : jsstring) (a : Z) (b : option Z) :
  is_substring (slice s a b) s.
Proof. apply substring_is_substring. Qed.

Lemma dropWhile_nil (f : N -> bool) (s : jsstring) :
  dropWhile f s = [] <-> forallb f s = true.
Proof.
  induction s as [|c s IH]; simpl.
  - tauto.
  - destruct (f c); simpl; [exact IH | split; discriminate].
Qed.

Lemma trim_nil (s : jsstring) : trim s = [] <-> whitespace_only s = true.
Proof.
  unfold trim, trimEnd, trimStart, whitespace_only. split.
  - intros H. apply dropWhile_nil.
    destruct (dropWhile isWhiteSpace s) as [|c r] eqn:E; [reflexivity|].
    assert (Hd : dropWhile isWhiteSpace (rev (c :: r)) = []).
    { apply (f_equal (@rev N)) in H. now rewrite rev_involutive in H. }
    apply dropWhile_nil in Hd. rewrite forallb_forall in Hd.
    assert (Hc : isWhiteSpace c = true) by (apply Hd, in_rev; rewrite rev_involutive; now left).
    clear - E Hc. exfalso.
    induction s as [|d s IH]; simpl in E; [discriminate|].
    destruct (isWhiteSpace d) eqn:Ed; [auto|]. congruence.
  - intros H. apply dropWhile_nil in H. now rewrite H.
Qed.

Lemma truthy_trim (s : jsstring) :
  ToBoolean (VString (trim s)) = negb (whitespace_only s).
Proof.
  destruct (whitespace_only s) eqn:E.
  - apply trim_nil in E. now rewrite E.
  - simpl. destruct (trim s) eqn:T; [|reflexivity].
    apply trim_nil in T. congruence.
Qed.

Lemma takeWhile_length (f : N -> bool) (X : jsstring) :
  length (takeWhile f X) <= length X.
Proof.
  induction X as [|c X IH]; simpl; [lia|].
  destruct (f c); simpl; lia.
Qed.

Lemma takeWhile_firstn (f : N -> bool) (X : jsstring) :
  firstn (length (takeWhile f X)) X = takeWhile f X.
Proof.
  induction X as [|c X IH]; simpl; [reflexivity|].
  destruct (f c); simpl; [now rewrite IH | reflexivity].
Qed.

Lemma takeWhile_forallb (f : N -> bool) (X : jsstring) :
  forallb f (takeWhile f X) = true.
Proof.
  induction X as [|c X IH]; simpl; [reflexivity|].
  destruct (f c) eqn:E; simpl; [now rewrite E | reflexivity].
Qed.

Lemma skipn_cons_lt (S : jsstring) (q : nat) :
  q < length S -> exists c r, skipn q S = c :: r.
Proof.
  intros H. destruct (skipn q S) as [|c r] eqn:E; [|eauto].
  apply (f_equal (@length N)) in E. rewrite length_skipn in E. simpl in E. lia.
Qed.

Lemma skipn_cons_inv (S : jsstring) (q : nat) (c : N) (r : jsstring) :
  skipn q S = c :: r ->
  q < length S /\ substring S q (q + 1) = [c].
Proof.
  intros E. split.
  - assert (H := f_equal (@length N) E).
    rewrite length_skipn in H. simpl in H. lia.
  - unfold substring. rewrite E. now replace (q + 1 - q) with 1 by lia.
Qed.

(* ===================================================================== *)
(** ** Facts about the matchers *)
(* ===================================================================== *)

Lemma m_plus_some (f : N -> bool) (S : jsstring) (q e : nat)
  (caps : list jsstring) :
  m_plus f S q = Some (e, caps) ->
  caps = [] /\ q < e <= length S /\
  substring S q e = takeWhile f (skipn q S).
Proof.
  unfold m_plus. intros H.
  assert (Hl := takeWhile_length f (skipn q S)).
  assert (Hf := takeWhile_firstn f (skipn q S)).
  rewrite length_skipn in Hl.
  destruct (length (takeWhile f (skipn q S))) as [|n] eqn:E; [discriminate|].
  injection H as <- <-. repeat split; try lia.
  unfold substring. now replace (q + Datatypes.S n - q) with (Datatypes.S n) by lia.
Qed.

Lemma m_plus_none (f : N -> bool) (S : jsstring) (q : nat) :
  m_plus f S q = None -> q < length S ->
  exists c r, skipn q S = c :: r /\ f c = false.
Proof.
  unfold m_plus. intros H Hq.
  destruct (skipn_cons_lt S Hq) as (c & r & E). exists c, r. split; [exact E|].
  rewrite E in H. simpl in H. destruct (f c); [discriminate | reflexivity].
Qed.

Lemma m_class_some (f : N -> bool) (S : jsstring) (q e : nat)
  (caps : list jsstring) :
  m_class f S q = Some (e, caps) ->
  caps = [] /\ e = q + 1 /\ exists c r, skipn q S = c :: r /\ f c = true.
Proof.
  unfold m_class. destruct (skipn q S) as [|c r] eqn:E; [discriminate|].
  destruct (f c) eqn:Ec; [|discriminate].
  intros H. injection H as <- <-. eauto 6.
Qed.

Lemma m_class_none (f : N -> bool) (S : jsstring) (q : nat) (c : N)
  (r : jsstring) :
  m_class f S q = None -> skipn q S = c :: r -> f c = false.
Proof.
  unfold m_class. intros H E. rewrite E in H.
  destruct (f c); [discriminate | reflexivity].
Qed.

Lemma re_whitespace_progressive (S : jsstring) : progressive re_whitespace S.
Proof.
  intros q e caps H. apply m_plus_some in H. tauto.
Qed.

Lemma re_whitespace_captures (S : jsstring) : captures_within re_whitespace S.
Proof.
  intros q e caps H. apply m_plus_some in H. destruct H as (-> & _). constructor.
Qed.

(** What a match of [/(\s+|[.,!?;:])/] at [q] is: a run of white space or
    one punctuation mark, captured whole. *)
Lemma re_separator_some (S : jsstring) (q e : nat) (caps : list jsstring) :
  re_separator S q = Some (e, caps) ->
  q < e <= length S /\ caps = [substring S q e] /\
  (whitespace_only (substring S q e) = true \/
   exists c, substring S q e = [c] /\ isWhiteSpace c = false).
Proof.
  unfold re_separator, m_group, m_alt. intros H.
  destruct (m_plus isWhiteSpace S q) as [[e1 c1]|] eqn:E1.
  - injection H as <- <-. apply m_plus_some in E1.
    destruct E1 as (-> & Hr & Hs). repeat split; try lia.
    left. rewrite Hs. apply takeWhile_forallb.
  - destruct (m_class isPunctuation S q) as [[e2 c2]|] eqn:E2; [|discriminate].
    injection H as <- <-. apply m_class_some in E2.
    destruct E2 as (-> & -> & c & r & Hsk & Hc).
    destruct (skipn_cons_inv _ _ Hsk) as (Hlt & Hsub).
    repeat split; try lia. right. exists c. split; [exact Hsub|].
    apply (m_plus_none isWhiteSpace) in E1; [|exact Hlt].
    destruct E1 as (c' & r' & Hsk' & Hw). congruence.
Qed.

Lemma re_separator_none (S : jsstring) (q : nat) :
  re_separator S q = None -> q < length S ->
  exists c, substring S q (q + 1) = [c] /\ isWhiteSpace c = false.
Proof.
  unfold re_separator, m_group, m_alt. intros H Hq.
  destruct (m_plus isWhiteSpace S q) as [[e1 c1]|] eqn:E1; [discriminate|].
  apply m_plus_none in E1; [|exact Hq]. destruct E1 as (c & r & Hsk & Hw).
  exists c. split; [|exact Hw]. now apply skipn_cons_inv in Hsk.
Qed.

Lemma re_separator_progressive (S : jsstring) : progressive re_separator S.
Proof.
  intros q e caps H. apply re_separator_some in H. tauto.
Qed.

Lemma re_separator_captures (S : jsstring) : captures_within re_separator S.
Proof.
  intros q e caps H. apply re_separator_some in H.
  destruct H as (_ & -> & _). constructor; [|constructor].
  apply substring_is_substring.
Qed.

(* ===================================================================== *)
(** ** The loop of [split] *)
(* ===================================================================== *)

Lemma split_nonempty (rx : matcher) (S : jsstring) :
  S <> [] -> split rx S = split_loop rx (2 * length S + 2) S 0 0 [].
Proof. destruct S; [congruence | reflexivity]. Qed.

Section SplitRule.

Variable rx : matcher.
Variable S : jsstring.
Variable Inv : nat -> nat -> list jsstring -> Prop.
Variable Post : list jsstring -> Prop.

Hypothesis rx_progressive : progressive rx S.

Hypothesis step_none : forall p q A,
  Inv p q A -> p <= q < length S -> rx S q = None -> Inv p (q + 1) A.

Hypothesis step_some : forall p q A e caps,
  Inv p q A -> p <= q < length S -> rx S q = Some (e, caps) ->
  Inv e e (A ++ [substring S p q] ++ caps).

Hypothesis at_exit : forall p A,
  Inv p (length S) A -> p <= length S ->
  Post (A ++ [substring S p (length S)]).

(** With a progressive matcher the loop finishes within [length S - q]
    further iterations, and an invariant kept by both kinds of step
    holds of the result. *)
Lemma split_loop_rule (fuel p q : nat) (A : list jsstring) :
  length S - q < fuel -> p <= q <= length S -> Inv p q A ->
  exists L, split_loop rx fuel S p q A = Normal L /\ Post L.
Proof.
  revert p q A. induction fuel as [|fuel IH]; intros p q A Hf Hpq HI; [lia|].
  simpl. destruct (Nat.ltb_spec q (length S)) as [Hlt|Hge].
  - destruct (rx S q) as [[e caps]|] eqn:E.
    + destruct (rx_progressive E) as [Hqe Hel].
      rewrite (Nat.min_l _ _ Hel).
      destruct (Nat.eqb_spec e p) as [->|_]; [lia|].
      apply IH; [lia | lia |]. apply (step_some HI); [lia | exact E].
    + apply IH; [lia | lia |]. apply step_none; [exact HI | lia | exact E].
  - assert (q = length S) as -> by lia.
    eexists. split; [reflexivity|]. apply at_exit; [exact HI | lia].
Qed.

(** The same for [split] on a non-empty string. *)
Lemma split_rule :
  S <> [] -> Inv 0 0 [] ->
  exists L, split rx S = Normal L /\ Post L.
Proof.
  intros Hne HI. rewrite (split_nonempty rx Hne).
  apply split_loop_rule; [lia | lia | exact HI].
Qed.

End SplitRule.

(** [split] with either pattern of the source returns, and every piece
    is taken from the string. *)
Lemma split_substrings (rx : matcher) (S : jsstring) :
  progressive rx S -> captures_within rx S ->
  exists L, split rx S = Normal L /\ Forall (fun t => is_substring t S) L.
Proof.
  intros Hp Hc. destruct S as [|c r] eqn:E.
  - unfold split. destruct (rx [] 0); eexists; split; try reflexivity.
    + constructor.
    + constructor; [apply is_substring_refl | constructor].
  - rewrite <- E in *. assert (Hne : S <> []) by (rewrite E; discriminate).
    apply (@split_rule rx S (fun _ _ A => Forall (fun t => is_substring t S) A) _);
      auto.
    + intros p q A e caps HI _ Hm. rewrite !Forall_app. repeat split.
      * exact HI.
      * constructor; [apply substring_is_substring | constructor].
      * exact (Hc _ _ _ Hm).
    + intros p A HI _. rewrite Forall_app. split; [exact HI|].
      constructor; [apply substring_is_substring | constructor].
Qed.

(** A string that starts with white space splits into an empty first
    word. *)
Lemma split_whitespace_leading (c : N) (r : jsstring) :
  isWhiteSpace c = true ->
  exists L, split re_whitespace (c :: r) = Normal ([] :: L).
Proof.
  intros Hc. set (S := c :: r).
  assert (Hne : S <> []) by discriminate.
  destruct (@split_rule re_whitespace S
              (fun p q A => (p = 0 /\ q = 0 /\ A = []) \/ exists A', A = [] :: A')
              (fun L => exists L', L = [] :: L')
              (re_whitespace_progressive S)) as (L & HL & L' & ->); eauto.
  - intros p q A [(-> & -> & ->)|HA] Hpq Hm; [|now right].
    apply m_plus_none in Hm; [|simpl; lia].
    destruct Hm as (c' & r' & Hsk & Hf). unfold S in Hsk. simpl in Hsk.
    congruence.
  - intros p q A e caps [(-> & -> & ->)|(A' & ->)] _ _; right.
    + rewrite substring_empty. simpl. eauto.
    + simpl. eauto.
  - intros p A [(-> & Hl & ->)|(A' & ->)] _; [discriminate|].
    simpl. eauto.
Qed.

(** A string that ends with white space splits into an empty last word. *)
Lemma split_whitespace_trailing (c : N) (r : jsstring) :
  isWhiteSpace c = true ->
  exists L, split re_whitespace (r ++ [c]) = Normal (L ++ [[]]).
Proof.
  intros Hc. set (S := r ++ [c]).
  assert (Hlen : length S = length r + 1) by (unfold S; rewrite length_app; simpl; lia).
  assert (Hne : S <> []) by (intros E; rewrite E in Hlen; simpl in Hlen; lia).
  destruct (@split_rule re_whitespace S
              (fun p q A => q = length S -> p = length S)
              (fun L => exists L', L = L' ++ [[]])
              (re_whitespace_progressive S)) as (L & HL & L' & ->); eauto.
  - intros p q A _ Hpq Hm Hq. exfalso.
    apply m_plus_none in Hm; [|lia]. destruct Hm as (c' & r' & Hsk & Hf).
    assert (q = length r) as -> by lia.
    unfold S in Hsk. rewrite skipn_app, Nat.sub_diag, skipn_all in Hsk.
    simpl in Hsk. congruence.
  - intros p A HI _. rewrite (HI eq_refl), substring_empty. eauto.
Qed.

(** The pieces of [split] with the separator pattern: together they are
    the whole string, and each piece is white space only or free of white
    space. *)
Lemma split_separator_pieces (S : jsstring) :
  exists L, split re_separator S = Normal L /\ concat L = S /\
    Forall unmixed L.
Proof.
  destruct S as [|c0 r0] eqn:E.
  - exists [[]]. repeat split. constructor; [now left | constructor].
  - rewrite <- E. assert (Hne : S <> []) by (rewrite E; discriminate).
    clear E.
    apply (@split_rule re_separator S
             (fun p q A =>
                concat A = firstn p S /\ Forall unmixed A /\
                whitespace_free (substring S p q) = true)
             _ (re_separator_progressive S)).
    + intros p q A (HA & HF & Hs) Hpq Hm. repeat split; auto.
      apply re_separator_none in Hm; [|lia]. destruct Hm as (c & Hc & Hw).
      rewrite <- (substring_app S (p := p) (q := q) (r := q + 1)) by lia.
      unfold whitespace_free in *. rewrite forallb_app, Hs, Hc. simpl.
      now rewrite Hw.
    + intros p q A e caps (HA & HF & Hs) Hpq Hm.
      apply re_separator_some in Hm. destruct Hm as (Hr & -> & Hk).
      repeat split.
      * rewrite concat_app, HA. simpl.
        rewrite !app_nil_r, <- substring_prefix.
        rewrite !substring_app by lia. apply substring_prefix.
      * rewrite !Forall_app. split; [exact HF | split].
        -- constructor; [now right | constructor].
        -- constructor; [|constructor].
           destruct Hk as [Hk|(c & Hc & Hw)]; [now left | right].
           rewrite Hc. unfold whitespace_free. simpl. now rewrite Hw.
      * now rewrite substring_empty.
    + intros p A (HA & HF & Hs) Hp. split.
      * rewrite concat_app, HA. simpl. rewrite app_nil_r.
        rewrite <- substring_prefix, substring_app by lia.
        apply substring_whole.
      * rewrite Forall_app. split; [exact HF|].
        constructor; [now right | constructor].
    + exact Hne.
    + repeat split. constructor.
Qed.

(* ===================================================================== *)
(** ** The locals and the callbacks *)
(* ===================================================================== *)

Lemma push_all_app (a b : list jsstring) (st : Local.locals) :
  push_all (a ++ b) st = push_all b (push_all a st).
Proof. apply fold_left_app. Qed.

Lemma push_all_texts (ts : list jsstring) (st : Local.locals) :
  map text (Local.tokenizedResult (push_all ts st))
  = map text (Local.tokenizedResult st) ++ ts.
Proof.
  revert st. induction ts as [|t ts IH]; intros st; simpl.
  - now rewrite app_nil_r.
  - unfold push_all in IH. rewrite IH. simpl.
    now rewrite map_app, <- app_assoc.
Qed.

Lemma push_token_numbered (t : jsstring) (st : Local.locals) :
  well_numbered st -> well_numbered (Local.push_token t st).
Proof.
  intros [Hids Hnext]. unfold well_numbered. simpl.
  rewrite length_app, map_app, Hids. simpl.
  rewrite Nat.add_1_r, seq_S, map_app. simpl.
  split; [|lia]. do 2 f_equal. lia.
Qed.

Lemma push_all_numbered (ts : list jsstring) (st : Local.locals) :
  well_numbered st -> well_numbered (push_all ts st).
Proof.
  revert st. induction ts as [|t ts IH]; intros st H; simpl; [exact H|].
  apply IH, push_token_numbered, H.
Qed.

Lemma initial_numbered : well_numbered initial.
Proof. split; reflexivity. Qed.

Lemma claude_word_texts (word : jsstring) (st : Local.locals) :
  Local.claude_word word st = push_all (claude_texts word) st.
Proof.
  unfold Local.claude_word, claude_texts.
  destruct (4 <? Z.of_nat (length word))%Z; reflexivity.
Qed.

Lemma gpt_part_texts (part : jsstring) (st : Local.locals) :
  Local.gpt_part part st = push_all (gpt_texts part) st.
Proof.
  unfold Local.gpt_part, gpt_texts.
  destruct (ToBoolean (VString (trim part))); reflexivity.
Qed.

Lemma forEach_claude (words : list jsstring) (st : Local.locals) :
  Local.forEach words Local.claude_word st
  = push_all (flat_map claude_texts words) st.
Proof.
  revert st. induction words as [|w ws IH]; intros st; simpl; [reflexivity|].
  rewrite push_all_app, <- claude_word_texts. apply IH.
Qed.

Lemma forEach_gpt (parts : list jsstring) (st : Local.locals) :
  Local.forEach parts Local.gpt_part st
  = push_all (flat_map gpt_texts parts) st.
Proof.
  revert st. induction parts as [|w ws IH]; intros st; simpl; [reflexivity|].
  rewrite push_all_app, <- gpt_part_texts. apply IH.
Qed.

Lemma strict_equals_Claude3 (m : value) :
  strict_equals_lit m (lit "Claude-3") = true <-> m = Claude3.
Proof.
  unfold strict_equals_lit, jsstring_eqb, Claude3.
  destruct m; try (split; [discriminate | discriminate]).
  destruct (list_eq_dec N.eq_dec s (lit "Claude-3")) as [->|Hn].
  - tauto.
  - split; [discriminate | intros H; injection H; congruence].
Qed.

(** The three ways a run on a string goes. *)
Lemma tokenizeText_cases (s : jsstring) (m : value) :
  (whitespace_only s = true /\
   Local.tokenizeText (VString s) m = Normal [])
  \/
  (whitespace_only s = false /\ m = Claude3 /\
   exists words, split re_whitespace s = Normal words /\
     Forall (fun w => is_substring w s) words /\
     Local.tokenizeText (VString s) m
     = Normal (Local.tokenizedResult
                 (push_all (flat_map claude_texts words) initial)))
  \/
  (whitespace_only s = false /\ m <> Claude3 /\
   exists pieces, split re_separator s = Normal pieces /\
     concat pieces = s /\ Forall unmixed pieces /\
     Local.tokenizeText (VString s) m
     = Normal (Local.tokenizedResult
                 (push_all (flat_map gpt_texts
                              (filter (fun part => 0 <? length part) pieces))
                           initial))).
Proof.
  unfold Local.tokenizeText. cbn [call_string_method bind].
  rewrite truthy_trim, negb_involutive.
  destruct (whitespace_only s) eqn:W; [now left | right].
  destruct (strict_equals_lit m (lit "Claude-3")) eqn:M.
  - left. apply strict_equals_Claude3 in M. repeat split; auto.
    destruct (split_substrings (re_whitespace_progressive s)
                (re_whitespace_captures s)) as (words & Hw & HF).
    exists words. rewrite Hw. cbn [bind]. now rewrite forEach_claude.
  - right. repeat split; auto.
    + intros E. apply strict_equals_Claude3 in E. congruence.
    + destruct (split_separator_pieces s) as (pieces & Hp & Hc & HF).
      exists pieces. rewrite Hp. cbn [bind]. now rewrite forEach_gpt.
Qed.

(* ===================================================================== *)
(** ** Runs on concrete inputs *)
(* ===================================================================== *)

Example split_whitespace_leading_blank :
  split re_whitespace (lit " hi") = Normal [[]; lit "hi"].
Proof. reflexivity. Qed.

Example split_separator_pieces_example :
  split re_separator (lit "a. b")
  = Normal [lit "a"; lit "."; []; lit " "; lit "b"].
Proof. reflexivity. Qed.

(** The first example text of the component, under both strategies. *)
Example tokenize_hello_gpt :
  Local.tokenizeText (VString (lit "Hello, how are you today?"))
                     (VString (lit "GPT-4"))
  = Normal [mkToken 1 (lit "Hello"); mkToken 2 (lit ",");
            mkToken 3 (lit "how"); mkToken 4 (lit "are");
            mkToken 5 (lit "you"); mkToken 6 (lit "today");
            mkToken 7 (lit "?")].
Proof. vm_compute. reflexivity. Qed.

Example tokenize_hello_claude :
  Local.tokenizeText (VString (lit "Hello, how are you today?"))
                     (VString (lit "Claude-3"))
  = Normal [mkToken 1 (lit "Hel"); mkToken 2 (lit "lo,");
            mkToken 3 (lit "how"); mkToken 4 (lit "are");
            mkToken 5 (lit "you"); mkToken 6 (lit "tod");
            mkToken 7 (lit "ay?")].
Proof. vm_compute. reflexivity. Qed.

(** On a blank input the guard returns before either strategy runs,
    although [split] would give two empty words. *)
Example blank_input_skips_strategy :
  split re_whitespace (lit " ") = Normal [[]; []] /\
  Local.tokenizeText (VString (lit " ")) (VString (lit "Claude-3")) = Normal [].
Proof. split; reflexivity. Qed.

(** [inputText.trim()] on a value that is not a string throws. *)
Example tokenize_undefined_throws :
  Local.tokenizeText VUndefined (VString (lit "GPT-4")) = Throw TypeError.
Proof. reflexivity. Qed.

(* ===================================================================== *)
(** ** The aggressive strategy, word by word *)
(* ===================================================================== *)

Lemma Math_ceil_div_half (n : Z) :
  (n <= 2 * Math_ceil_div n 2 < n + 2)%Z.
Proof. unfold Math_ceil_div. Z.div_mod_to_equations. lia. Qed.

Lemma slice_prefix (w : jsstring) (m : Z) :
  (0 <= m <= Z.of_nat (length w))%Z ->
  slice w 0 (Some m) = firstn (Z.to_nat m) w.
Proof.
  intros H. unfold slice. cbv zeta.
  replace (0 <? 0)%Z with false by reflexivity.
  destruct (Z.ltb_spec m 0) as [Hm|_]; [lia|].
  rewrite (Z.min_l 0) by lia. rewrite (Z.min_l m) by lia.
  rewrite Z.max_r by lia. apply substring_prefix.
Qed.

Lemma slice_suffix (w : jsstring) (m : Z) :
  (0 <= m <= Z.of_nat (length w))%Z ->
  slice w m None = skipn (Z.to_nat m) w.
Proof.
  intros H. unfold slice. cbv zeta.
  destruct (Z.ltb_spec m 0) as [Hm|_]; [lia|].
  rewrite (Z.min_l m) by lia. rewrite Z.max_r by lia.
  unfold substring. apply firstn_all2. rewrite length_skipn. lia.
Qed.

Lemma claude_texts_short (w : jsstring) :
  length w <= 4 -> claude_texts w = [w].
Proof.
  intros H. unfold claude_texts.
  destruct (Z.ltb_spec 4 (Z.of_nat (length w))); [lia | reflexivity].
Qed.

Lemma claude_texts_long (w : jsstring) :
  4 < length w ->
  exists a b, claude_texts w = [a; b] /\ a ++ b = w /\
              length w <= 2 * length a < length w + 2.
Proof.
  intros H. unfold claude_texts.
  destruct (Z.ltb_spec 4 (Z.of_nat (length w))) as [_|Hle]; [|lia].
  cbv zeta. assert (Hm := Math_ceil_div_half (Z.of_nat (length w))).
  set (mid := Math_ceil_div (Z.of_nat (length w)) 2) in *.
  assert (Hr : (0 <= mid <= Z.of_nat (length w))%Z) by lia.
  rewrite (slice_prefix w Hr), (slice_suffix w Hr).
  eexists _, _. split; [reflexivity|]. split; [apply firstn_skipn|].
  rewrite length_firstn. lia.
Qed.

Lemma Forall2_map_r {A B} (R : A -> B -> Prop) (f : A -> B) (l : list A) :
  (forall a, In a l -> R a (f a)) -> Forall2 R l (map f l).
Proof.
  induction l as [|a l IH]; intros H; simpl; constructor.
  - apply H. now left.
  - apply IH. intros b Hb. apply H. now right.
Qed.

(** C1.  Under the aggressive strategy (model ["Claude-3"], input whose
    trim is not empty) the token texts are, word after word of
    [inputText.split(/\s+/)], the group of that word: a word of length at
    most 4 gives the one token equal to it, a longer word gives exactly
    two tokens [a] and [b] with [a ++ b] the word, and the cut is at the
    ceiling of half the length (the least [k] with [length <= 2 * k]). *)
Theorem claude3_tokens_per_word (s : jsstring) :
  trim s <> [] ->
  exists words toks,
    split re_whitespace s = Normal words /\
    Local.tokenizeText (VString s) (VString (lit "Claude-3")) = Normal toks /\
    exists groups : list (list jsstring),
      map text toks = concat groups /\
      Forall2 (fun word group =>
                 (length word <= 4 -> group = [word]) /\
                 (4 < length word ->
                  exists a b, group = [a; b] /\ a ++ b = word /\
                              length word <= 2 * length a < length word + 2))
              words groups.
Proof.
  intros Ht.
  destruct (tokenizeText_cases s Claude3)
    as [(W & _)|[(W & _ & words & Hs & _ & Hr)|(_ & Hm & _)]].
  - apply trim_nil in W. contradiction.
  - exists words. eexists. split; [exact Hs|]. split; [exact Hr|].
    exists (map claude_texts words). split.
    + rewrite push_all_texts. simpl. apply flat_map_concat_map.
    + apply Forall2_map_r. intros w _. split.
      * apply claude_texts_short.
      * apply claude_texts_long.
  - now contradiction Hm.
Qed.

(** An instance at the input ["ab  hello"]. *)
Lemma claude3_tokens_per_word_witness :
  trim (lit "ab  hello") <> [] /\
  exists words toks,
    split re_whitespace (lit "ab  hello") = Normal words /\
    Local.tokenizeText (VString (lit "ab  hello")) (VString (lit "Claude-3"))
    = Normal toks /\
    exists groups : list (list jsstring),
      map text toks = concat groups /\
      Forall2 (fun word group =>
                 (length word <= 4 -> group = [word]) /\
                 (4 < length word ->
                  exists a b, group = [a; b] /\ a ++ b = word /\
                              length word <= 2 * length a < length word + 2))
              words groups.
Proof.
  assert (H : trim (lit "ab  hello") <> []) by (vm_compute; discriminate).
  split; [exact H|].
  apply (claude3_tokens_per_word (lit "ab  hello") H).
Defined.

(* ===================================================================== *)
(** ** The punctuation-based strategy *)
(* ===================================================================== *)

Lemma strip_whitespace_only (t : jsstring) :
  whitespace_only t = true -> strip_whitespace t = [].
Proof.
  unfold whitespace_only, strip_whitespace.
  induction t as [|c t IH]; simpl; [reflexivity|].
  destruct (isWhiteSpace c); simpl; [exact IH | discriminate].
Qed.

Lemma strip_whitespace_free (t : jsstring) :
  whitespace_free t = true -> strip_whitespace t = t.
Proof.
  unfold whitespace_free, strip_whitespace.
  induction t as [|c t IH]; simpl; [reflexivity|].
  destruct (isWhiteSpace c); simpl; [discriminate|].
  intros H. now rewrite IH.
Qed.

Lemma gpt_texts_spec (t : jsstring) :
  gpt_texts t = if whitespace_only t then [] else [t].
Proof.
  unfold gpt_texts. rewrite truthy_trim. now destruct (whitespace_only t).
Qed.

(** The two filters of the source together keep the pieces that are not
    white space only (the empty piece is). *)
Lemma kept_parts (pieces : list jsstring) :
  flat_map gpt_texts (filter (fun part => 0 <? length part) pieces)
  = filter (fun t => negb (whitespace_only t)) pieces.
Proof.
  induction pieces as [|t ps IH]; simpl; [reflexivity|].
  destruct t as [|c t]; simpl; [exact IH|].
  rewrite gpt_texts_spec, IH.
  change (isWhiteSpace c && whitespace_only t) with (whitespace_only (c :: t)).
  now destruct (whitespace_only (c :: t)).
Qed.

Lemma concat_kept (pieces : list jsstring) :
  Forall unmixed pieces ->
  concat (filter (fun t => negb (whitespace_only t)) pieces)
  = strip_whitespace (concat pieces).
Proof.
  induction 1 as [|t ps Ht _ IH]; simpl; [reflexivity|].
  unfold strip_whitespace at 1. rewrite filter_app.
  fold (strip_whitespace t). fold (strip_whitespace (concat ps)).
  rewrite <- IH. destruct (whitespace_only t) eqn:W; simpl.
  - now rewrite (strip_whitespace_only _ W).
  - destruct Ht as [Ht|Ht]; [congruence|].
    now rewrite (strip_whitespace_free _ Ht).
Qed.

Lemma kept_of_whitespace (pieces : list jsstring) :
  whitespace_only (concat pieces) = true ->
  filter (fun t => negb (whitespace_only t)) pieces = [].
Proof.
  unfold whitespace_only.
  induction pieces as [|t ps IH]; simpl; [reflexivity|].
  rewrite forallb_app. intros H. apply andb_prop in H. destruct H as [H1 H2].
  rewrite H1. simpl. now apply IH.
Qed.

(** C2.  Under the punctuation-based strategy (any model other than
    ["Claude-3"]) the texts of the tokens, concatenated in order, are the
    input string without its white space. *)
Theorem gpt_concat_strips_whitespace (s : jsstring) (model : value) :
  model <> VString (lit "Claude-3") ->
  exists toks,
    Local.tokenizeText (VString s) model = Normal toks /\
    concat (map text toks) = strip_whitespace s.
Proof.
  intros Hm.
  destruct (tokenizeText_cases s model)
    as [(W & Hr)|[(_ & E & _)|(_ & _ & pieces & _ & Hc & HF & Hr)]].
  - exists []. split; [exact Hr|]. now rewrite (strip_whitespace_only _ W).
  - contradiction.
  - eexists. split; [exact Hr|].
    rewrite push_all_texts, kept_parts. simpl.
    rewrite (concat_kept HF). now rewrite Hc.
Qed.

(** An instance at ["Hi, you!"] and model ["GPT-4"]. *)
Lemma gpt_concat_strips_whitespace_witness :
  VString (lit "GPT-4") <> VString (lit "Claude-3") /\
  exists toks,
    Local.tokenizeText (VString (lit "Hi, you!")) (VString (lit "GPT-4"))
    = Normal toks /\
    concat (map text toks) = strip_whitespace (lit "Hi, you!").
Proof.
  assert (H : VString (lit "GPT-4") <> VString (lit "Claude-3"))
    by (vm_compute; discriminate).
  split; [exact H|].
  apply (gpt_concat_strips_whitespace (lit "Hi, you!") H).
Defined.

(** C5.  Under the punctuation-based strategy the tokens are exactly the
    pieces of [inputText.split(/(\s+|[.,!?;:])/)] that are not white space
    only, in order: empty pieces and white-space pieces are dropped, so
    every token text is non-empty and not white space only. *)
Theorem gpt_tokens_not_blank (s : jsstring) (model : value) :
  model <> VString (lit "Claude-3") ->
  exists pieces toks,
    split re_separator s = Normal pieces /\
    Local.tokenizeText (VString s) model = Normal toks /\
    map text toks = filter (fun t => negb (whitespace_only t)) pieces /\
    Forall (fun tok => text tok <> [] /\ whitespace_only (text tok) = false)
           toks.
Proof.
  intros Hm.
  assert (Hall : forall pieces toks,
             map text toks = filter (fun t => negb (whitespace_only t)) pieces ->
             Forall (fun tok => text tok <> [] /\ whitespace_only (text tok) = false)
                    toks).
  { intros pieces toks E. apply Forall_forall. intros tok Hin.
    apply (in_map text) in Hin. rewrite E in Hin.
    apply filter_In in Hin. destruct Hin as [_ Hk].
    apply negb_true_iff in Hk. split; [|exact Hk].
    intros E0. rewrite E0 in Hk. discriminate. }
  destruct (tokenizeText_cases s model)
    as [(W & Hr)|[(_ & E & _)|(_ & _ & pieces & Hs & Hc & HF & Hr)]].
  - destruct (split_separator_pieces s) as (pieces & Hs & Hc & _).
    exists pieces, []. split; [exact Hs|]. split; [exact Hr|].
    rewrite kept_of_whitespace by (now rewrite Hc). split; [reflexivity|].
    constructor.
  - contradiction.
  - exists pieces. eexists. split; [exact Hs|]. split; [exact Hr|].
    assert (E : map text
                  (Local.tokenizedResult
                     (push_all
                        (flat_map gpt_texts
                           (filter (fun part => 0 <? length part) pieces))
                        initial))
                = filter (fun t => negb (whitespace_only t)) pieces).
    { rewrite push_all_texts. simpl. apply kept_parts. }
    split; [exact E | exact (Hall _ _ E)].
Qed.

(** An instance at ["a.  b"] and model ["GPT-4"]. *)
Lemma gpt_tokens_not_blank_witness :
  VString (lit "GPT-4") <> VString (lit "Claude-3") /\
  exists pieces toks,
    split re_separator (lit "a.  b") = Normal pieces /\
    Local.tokenizeText (VString (lit "a.  b")) (VString (lit "GPT-4"))
    = Normal toks /\
    map text toks = filter (fun t => negb (whitespace_only t)) pieces /\
    Forall (fun tok => text tok <> [] /\ whitespace_only (text tok) = false)
           toks.
Proof.
  assert (H : VString (lit "GPT-4") <> VString (lit "Claude-3"))
    by (vm_compute; discriminate).
  split; [exact H|].
  apply (gpt_tokens_not_blank (lit "a.  b") H).
Defined.

(* ===================================================================== *)
(** ** Properties of every run *)
(* ===================================================================== *)

(** A run on a string returns the result of pushing some texts, one
    after the other, onto the initial locals. *)
Lemma tokenizeText_pushes (s : jsstring) (model : value) :
  exists ts,
    Local.tokenizeText (VString s) model
    = Normal (Local.tokenizedResult (push_all ts initial)) /\
    Forall (fun t => is_substring t s) ts.
Proof.
  destruct (tokenizeText_cases s model)
    as [(_ & Hr)|[(_ & _ & words & _ & HF & Hr)
                 |(_ & _ & pieces & _ & Hc & _ & Hr)]].
  - exists []. split; [exact Hr | constructor].
  - eexists. split; [exact Hr|].
    apply Forall_forall. intros t Hin. apply in_flat_map in Hin.
    destruct Hin as (w & Hw & Ht).
    rewrite Forall_forall in HF. apply is_substring_trans with w; [|auto].
    unfold claude_texts in Ht.
    destruct (4 <? Z.of_nat (length w))%Z; simpl in Ht.
    + destruct Ht as [<-|[<-|[]]]; apply slice_is_substring.
    + destruct Ht as [<-|[]]. apply is_substring_refl.
  - eexists. split; [exact Hr|]. rewrite kept_parts.
    apply Forall_forall. intros t Hin. apply filter_In in Hin.
    rewrite <- Hc. apply is_substring_concat. tauto.
Qed.

(** C3.  The ids of the N tokens of a run are 1, 2, ..., N in output
    order, whatever the input string and the model. *)
Theorem token_ids_sequential (s : jsstring) (model : value) :
  exists toks,
    Local.tokenizeText (VString s) model = Normal toks /\
    map id toks = map Z.of_nat (seq 1 (length toks)).
Proof.
  destruct (tokenizeText_pushes s model) as (ts & Hr & _).
  eexists. split; [exact Hr|].
  apply (push_all_numbered ts initial_numbered).
Qed.

(** C4.  When the trim of the input is empty (the input is empty or
    white space only) the run returns no token, whatever the model. *)
Theorem blank_input_no_tokens (s : jsstring) (model : value) :
  trim s = [] ->
  Local.tokenizeText (VString s) model = Normal [].
Proof.
  intros H. unfold Local.tokenizeText. cbn [call_string_method bind].
  now rewrite H.
Qed.

(** An instance at the input of a blank, a tab and a line feed. *)
Lemma blank_input_no_tokens_witness :
  trim [32; 9; 10]%N = [] /\
  Local.tokenizeText (VString [32; 9; 10]%N) (VString (lit "Claude-3"))
  = Normal [].
Proof.
  assert (H : trim [32; 9; 10]%N = []) by reflexivity.
  split; [exact H|].
  apply (blank_input_no_tokens [32; 9; 10]%N (VString (lit "Claude-3")) H).
Defined.

(** C6.  The text of every token of a run is a contiguous substring of
    the input string, whatever the model. *)
Theorem token_text_is_substring (s : jsstring) (model : value) :
  exists toks,
    Local.tokenizeText (VString s) model = Normal toks /\
    Forall (fun tok => is_substring (text tok) s) toks.
Proof.
  destruct (tokenizeText_pushes s model) as (ts & Hr & HF).
  eexists. split; [exact Hr|].
  apply Forall_map with (f := text) (P := fun t => is_substring t s).
  now rewrite push_all_texts.
Qed.

(** C7.  On two strings the tokenizer returns a token sequence: it does
    not throw and its loops finish.  The result is a function of the two
    arguments alone. *)
Theorem tokenizeText_total_pure (s m : jsstring) :
  (exists toks, Local.tokenizeText (VString s) (VString m) = Normal toks) /\
  (forall s' m', s' = s -> m' = m ->
     Local.tokenizeText (VString s') (VString m')
     = Local.tokenizeText (VString s) (VString m)).
Proof.
  split.
  - destruct (tokenizeText_pushes s (VString m)) as (ts & Hr & _). eauto.
  - intros s' m' -> ->. reflexivity.
Qed.

(** An instance at ["Hello, world"] and ["GPT-4"]. *)
Lemma tokenizeText_total_pure_witness :
  (exists toks,
     Local.tokenizeText (VString (lit "Hello, world")) (VString (lit "GPT-4"))
     = Normal toks) /\
  Local.tokenizeText (VString (lit "Hello, world")) (VString (lit "GPT-4"))
  = Local.tokenizeText (VString (lit "Hello, world")) (VString (lit "GPT-4")).
Proof.
  destruct (tokenizeText_total_pure (lit "Hello, world") (lit "GPT-4"))
    as [Hex Heq].
  split; [exact Hex|].
  apply (Heq (lit "Hello, world") (lit "GPT-4")); reflexivity.
Defined.

(** C9.  Two models that both differ from ["Claude-3"] give the same
    result on every input: the model is only compared with that name. *)
Theorem model_only_through_Claude3 (s : jsstring) (m1 m2 : value) :
  m1 <> VString (lit "Claude-3") ->
  m2 <> VString (lit "Claude-3") ->
  Local.tokenizeText (VString s) m1 = Local.tokenizeText (VString s) m2.
Proof.
  intros H1 H2. unfold Local.tokenizeText.
  assert (E : forall m, m <> VString (lit "Claude-3") ->
                        strict_equals_lit m (lit "Claude-3") = false).
  { intros m Hm. destruct (strict_equals_lit m (lit "Claude-3")) eqn:E;
      [|reflexivity].
    apply strict_equals_Claude3 in E. contradiction. }
  now rewrite (E m1 H1), (E m2 H2).
Qed.

(** An instance at ["a b"] with ["GPT-4"] and ["GPT-3.5-Turbo"]. *)
Lemma model_only_through_Claude3_witness :
  VString (lit "GPT-4") <> VString (lit "Claude-3") /\
  VString (lit "GPT-3.5-Turbo") <> VString (lit "Claude-3") /\
  Local.tokenizeText (VString (lit "a b")) (VString (lit "GPT-4"))
  = Local.tokenizeText (VString (lit "a b")) (VString (lit "GPT-3.5-Turbo")).
Proof.
  assert (H1 : VString (lit "GPT-4") <> VString (lit "Claude-3"))
    by (vm_compute; discriminate).
  assert (H2 : VString (lit "GPT-3.5-Turbo") <> VString (lit "Claude-3"))
    by (vm_compute; discriminate).
  split; [exact H1|]. split; [exact H2|].
  apply (model_only_through_Claude3 (lit "a b") H1 H2).
Defined.

(** C10.  Under the aggressive strategy an input whose trim is not empty
    and that starts or ends with white space gives a token with the empty
    text: [split] returns an empty first or last word and the callback
    pushes it like any other word.  [" hi"] is such an input. *)
Theorem claude3_empty_token :
  (forall s : jsstring,
     trim s <> [] ->
     (exists c r, s = c :: r /\ isWhiteSpace c = true) \/
     (exists r c, s = r ++ [c] /\ isWhiteSpace c = true) ->
     exists words toks,
       split re_whitespace s = Normal words /\ In [] words /\
       Local.tokenizeText (VString s) (VString (lit "Claude-3")) = Normal toks /\
       In [] (map text toks)) /\
  (trim (lit " hi") <> [] /\
   exists toks,
     Local.tokenizeText (VString (lit " hi")) (VString (lit "Claude-3"))
     = Normal toks /\
     In [] (map text toks)).
Proof.
  split.
  - intros s Ht Hends.
    destruct (tokenizeText_cases s Claude3)
      as [(W & _)|[(_ & _ & words & Hs & _ & Hr)|(_ & Hm & _)]].
    + apply trim_nil in W. contradiction.
    + assert (Hin : In [] words).
      { destruct Hends as [(c & r & -> & Hc)|(r & c & -> & Hc)].
        - destruct (@split_whitespace_leading c r Hc) as (L & HL).
          rewrite HL in Hs. injection Hs as <-. now left.
        - destruct (@split_whitespace_trailing c r Hc) as (L & HL).
          rewrite HL in Hs. injection Hs as <-.
          apply in_or_app. right. now left. }
      exists words. eexists. split; [exact Hs|]. split; [exact Hin|].
      split; [exact Hr|].
      rewrite push_all_texts. simpl. apply in_flat_map.
      exists []. split; [exact Hin | now left].
    + now contradiction Hm.
  - split; [vm_compute; discriminate|].
    eexists. split; [vm_compute; reflexivity|]. now left.
Qed.

(** An instance at ["hi "], which ends with a blank. *)
Lemma claude3_empty_token_witness :
  trim (lit "hi ") <> [] /\
  exists words toks,
    split re_whitespace (lit "hi ") = Normal words /\ In [] words /\
    Local.tokenizeText (VString (lit "hi ")) (VString (lit "Claude-3"))
    = Normal toks /\
    In [] (map text toks).
Proof.
  assert (H : trim (lit "hi ") <> []) by (vm_compute; discriminate).
  split; [exact H|].
  apply (proj1 claude3_empty_token (lit "hi ") H).
  right. exists (lit "hi"), 32%N. split; reflexivity.
Defined.

(* ===================================================================== *)
(** ** The network-backed variant *)
(* ===================================================================== *)

Lemma get_tokens_without_field (data : value) :
  Frontend.has_tokens_field data = false ->
  Frontend.get_tokens data = Throw TypeError \/
  Frontend.get_tokens data = Normal VUndefined.
Proof.
  destruct data; simpl; auto.
  intros H. right.
  induction props as [|kv props IH]; simpl in *; [reflexivity|].
  destruct (jsstring_eqb (fst kv) (lit "tokens")); simpl in H;
    [discriminate | auto].
Qed.

(** C8.  In the network-backed variant, when the remote call fails (the
    promise of [fetch] rejects, the response is not ok, or its body is
    not JSON with a [tokens] field) the promise of [tokenizeText] is
    fulfilled with the empty array: nothing is thrown to the caller. *)
Theorem failed_call_gives_no_tokens
  (toLowerCase : jsstring -> jsstring) (JSON_stringify : value -> jsstring)
  (fetch : Frontend.request -> completion Frontend.response)
  (s m : jsstring) (w : Frontend.world) :
  Frontend.call_failed
    (fetch (Frontend.tokenize_request JSON_stringify (VString s) (toLowerCase m)))
  = true ->
  fst (Frontend.tokenizeText toLowerCase JSON_stringify fetch
         (VString s) (VString m) w)
  = Normal (VArray []).
Proof.
  intros Hfail. unfold Frontend.tokenizeText, Frontend.mbind, Frontend.await.
  cbn [call_string_method].
  destruct (negb (ToBoolean (VString (trim s)))); [reflexivity|].
  unfold Frontend.try_finally, Frontend.try_catch, Frontend.setLoading.
  cbn [fst snd].
  destruct (fetch _) as [resp|e|]; cbn [Frontend.call_failed] in Hfail.
  - destruct (Frontend.ok resp); cbn [negb orb] in Hfail |- *;
      [|reflexivity].
    destruct (Frontend.json resp) as [data|e|]; [|reflexivity|discriminate].
    apply negb_true_iff in Hfail.
    destruct (get_tokens_without_field data Hfail) as [-> | ->]; reflexivity.
  - reflexivity.
  - discriminate.
Qed.

(** An instance when [fetch] rejects with a network error. *)
Lemma failed_call_gives_no_tokens_witness :
  Frontend.call_failed
    ((fun _ => Throw NetworkError)
       (Frontend.tokenize_request (fun _ => []) (VString (lit "hi"))
          ((fun m => m) (lit "GPT-4"))))
  = true /\
  fst (Frontend.tokenizeText (fun m => m) (fun _ => [])
         (fun _ => Throw NetworkError)
         (VString (lit "hi")) (VString (lit "GPT-4"))
         {| Frontend.loading := false; Frontend.console := [] |})
  = Normal (VArray []).
Proof.
  split; [reflexivity|].
  apply (failed_call_gives_no_tokens (fun m => m) (fun _ => [])
           (fun _ => Throw NetworkError) (lit "hi") (lit "GPT-4")
           {| Frontend.loading := false; Frontend.console := [] |}).
  reflexivity.
Defined.

(* ===================================================================== *)
(** ** The punctuation-based strategy as one pass over the input *)
(* ===================================================================== *)

Lemma skipn_substring (S : jsstring) (q e : nat) :
  q <= e -> skipn q S = substring S q e ++ skipn e S.
Proof.
  intros H. unfold substring.
  replace (skipn e S) with (skipn (e - q) (skipn q S))
    by (rewrite skipn_skipn; f_equal; lia).
  now rewrite firstn_skipn.
Qed.

Lemma skipn_cons_next (S : jsstring) (q : nat) (c : N) (r : jsstring) :
  skipn q S = c :: r -> skipn (q + 1) S = r.
Proof.
  intros E. rewrite Nat.add_comm, <- skipn_skipn, E. reflexivity.
Qed.

Lemma substring_length (S : jsstring) (p q : nat) :
  q <= length S -> length (substring S p q) = q - p.
Proof.
  intros H. unfold substring. rewrite length_firstn, length_skipn. lia.
Qed.

(** A match of the separator pattern is a non-empty run of white space
    or one punctuation mark that is not white space. *)
Lemma re_separator_some_kind (S : jsstring) (q e : nat)
  (caps : list jsstring) :
  re_separator S q = Some (e, caps) ->
  (whitespace_only (substring S q e) = true /\ substring S q e <> []) \/
  (exists c, substring S q e = [c] /\ isWhiteSpace c = false /\
             isPunctuation c = true).
Proof.
  unfold re_separator, m_group, m_alt. intros H.
  destruct (m_plus isWhiteSpace S q) as [[e1 c1]|] eqn:E1.
  - injection H as <- <-. apply m_plus_some in E1.
    destruct E1 as (_ & Hr & Hs). left. split.
    + rewrite Hs. apply takeWhile_forallb.
    + intros E0. apply (f_equal (@length N)) in E0.
      rewrite substring_length in E0 by lia. simpl in E0. lia.
  - destruct (m_class isPunctuation S q) as [[e2 c2]|] eqn:E2; [|discriminate].
    injection H as <- <-. apply m_class_some in E2.
    destruct E2 as (_ & -> & c & r & Hsk & Hc).
    destruct (skipn_cons_inv _ _ Hsk) as (Hlt & Hsub).
    right. exists c. repeat split; auto.
    apply (m_plus_none isWhiteSpace) in E1; [|exact Hlt].
    destruct E1 as (c' & r' & Hsk' & Hw). congruence.
Qed.

(** Where the separator pattern does not match there is a code unit
    that is neither white space nor punctuation. *)
Lemma re_separator_none_kind (S : jsstring) (q : nat) :
  re_separator S q = None -> q < length S ->
  exists c, skipn q S = c :: skipn (q + 1) S /\
            isWhiteSpace c = false /\ isPunctuation c = false.
Proof.
  unfold re_separator, m_group, m_alt. intros H Hq.
  destruct (m_plus isWhiteSpace S q) as [[e1 c1]|] eqn:E1; [discriminate|].
  destruct (m_class isPunctuation S q) as [[e2 c2]|] eqn:E2; [discriminate|].
  apply m_plus_none in E1; [|exact Hq]. destruct E1 as (c & r & Hsk & Hw).
  exists c. rewrite (skipn_cons_next _ _ Hsk). repeat split; auto.
  exact (m_class_none _ _ _ E2 Hsk).
Qed.

Lemma scan_whitespace_run (run cur rest : jsstring) :
  whitespace_only run = true -> run <> [] ->
  scan_reference cur (run ++ rest) = flush cur ++ scan_reference [] rest.
Proof.
  intros Hw Hne. destruct run as [|c run]; [congruence|]. clear Hne.
  revert c cur Hw. induction run as [|d run IH]; intros c cur Hw;
    unfold whitespace_only in Hw; simpl in Hw;
    apply andb_prop in Hw; destruct Hw as [Hc Hr].
  - simpl. now rewrite Hc.
  - change ((c :: d :: run) ++ rest) with (c :: (d :: run) ++ rest).
    cbn [scan_reference]. rewrite Hc. f_equal.
    now rewrite (IH d [] Hr).
Qed.

Lemma kept_fragment (w : jsstring) :
  whitespace_free w = true ->
  filter (fun t => negb (whitespace_only t)) [w] = flush w.
Proof.
  destruct w as [|c w]; [reflexivity|].
  unfold whitespace_free, whitespace_only. simpl.
  destruct (isWhiteSpace c); simpl; [discriminate | reflexivity].
Qed.

(** The pieces of [split] that the two filters keep are the texts of
    the reference scanner. *)
Lemma split_separator_kept (S : jsstring) :
  exists L, split re_separator S = Normal L /\
            filter (fun t => negb (whitespace_only t)) L = scan_reference [] S.
Proof.
  destruct S as [|c0 r0] eqn:E.
  - exists [[]]. split; reflexivity.
  - rewrite <- E. assert (Hne : S <> []) by (rewrite E; discriminate).
    clear E.
    apply (@split_rule re_separator S
             (fun p q A =>
                whitespace_free (substring S p q) = true /\
                filter (fun t => negb (whitespace_only t)) A
                  ++ scan_reference (substring S p q) (skipn q S)
                = scan_reference [] S)
             _ (re_separator_progressive S)).
    + intros p q A (Hs & HI) Hpq Hm.
      apply re_separator_none_kind in Hm; [|lia].
      destruct Hm as (c & Hsk & Hw & Hp).
      assert (Hc : substring S q (q + 1) = [c])
        by (apply (skipn_cons_inv _ _ Hsk)).
      rewrite <- (substring_app S (p := p) (q := q) (r := q + 1)) by lia.
      rewrite Hc. split.
      * unfold whitespace_free in *. rewrite forallb_app, Hs. simpl.
        now rewrite Hw.
      * rewrite <- HI, Hsk. cbn [scan_reference]. now rewrite Hw, Hp.
    + intros p q A e caps (Hs & HI) Hpq Hm.
      assert (Hk := re_separator_some_kind _ _ Hm).
      apply re_separator_some in Hm. destruct Hm as (Hr & -> & _).
      split; [now rewrite substring_empty|].
      rewrite substring_empty, <- HI.
      rewrite (skipn_substring S (q := q) (e := e)) by lia.
      rewrite !filter_app, (kept_fragment _ Hs), <- !app_assoc.
      f_equal.
      destruct Hk as [(Hw & Hn)|(c & Hc & Hw & Hp)].
      * rewrite (scan_whitespace_run _ _ Hw Hn). simpl. now rewrite Hw.
      * rewrite Hc. simpl. now rewrite Hw, Hp.
    + intros p A (Hs & HI) Hp. rewrite <- HI, skipn_all.
      rewrite filter_app, (kept_fragment _ Hs). reflexivity.
    + exact Hne.
    + split; [reflexivity|]. now rewrite substring_empty.
Qed.

Lemma scan_blank (s : jsstring) :
  whitespace_only s = true -> scan_reference [] s = [].
Proof.
  unfold whitespace_only. induction s as [|c s IH]; simpl; [reflexivity|].
  intros H. apply andb_prop in H. destruct H as [Hc Hs].
  rewrite Hc. simpl. now apply IH.
Qed.

(** A run of the punctuation-based strategy pushes the texts of the
    reference scanner, blank inputs included. *)
Lemma gpt_run (s : jsstring) (model : value) :
  model <> Claude3 ->
  Local.tokenizeText (VString s) model
  = Normal (Local.tokenizedResult (push_all (scan_reference [] s) initial)).
Proof.
  intros Hm.
  destruct (tokenizeText_cases s model)
    as [(W & Hr)|[(_ & E & _)|(_ & _ & pieces & Hs & _ & _ & Hr)]].
  - now rewrite Hr, (scan_blank _ W).
  - contradiction.
  - rewrite Hr, kept_parts.
    destruct (split_separator_kept s) as (L & HL & <-).
    rewrite HL in Hs. now injection Hs as ->.
Qed.

Lemma scan_compose (cur a b : jsstring) (c : N) :
  isWhiteSpace c = true ->
  scan_reference cur (a ++ c :: b)
  = scan_reference cur a ++ scan_reference [] b.
Proof.
  intros Hc. revert cur. induction a as [|d a IH]; intros cur; simpl.
  - now rewrite Hc.
  - destruct (isWhiteSpace d); [now rewrite IH, app_assoc|].
    destruct (isPunctuation d); [|apply IH].
    rewrite IH. now rewrite <- app_assoc.
Qed.

Lemma scan_leading (s : jsstring) :
  scan_reference [] (dropWhile isWhiteSpace s) = scan_reference [] s.
Proof.
  induction s as [|c s IH]; simpl; [reflexivity|].
  destruct (isWhiteSpace c) eqn:E; [exact IH|].
  simpl. now rewrite E.
Qed.

Lemma scan_trailing (cur x w : jsstring) :
  whitespace_only w = true ->
  scan_reference cur (x ++ w) = scan_reference cur x.
Proof.
  intros Hw. revert cur. induction x as [|d x IH]; intros cur; simpl.
  - destruct w as [|c w]; [reflexivity|].
    rewrite <- (app_nil_r (c :: w)).
    rewrite scan_whitespace_run by (auto; discriminate).
    simpl. apply app_nil_r.
  - now rewrite !IH.
Qed.

Lemma takeWhile_dropWhile (f : N -> bool) (s : jsstring) :
  takeWhile f s ++ dropWhile f s = s.
Proof.
  induction s as [|c s IH]; simpl; [reflexivity|].
  destruct (f c); simpl; [now rewrite IH | reflexivity].
Qed.

Lemma trimEnd_split (s : jsstring) :
  exists w, whitespace_only w = true /\ s = trimEnd s ++ w.
Proof.
  exists (rev (takeWhile isWhiteSpace (rev s))). split.
  - unfold whitespace_only. apply forallb_forall. intros c Hin.
    apply in_rev in Hin.
    assert (H := takeWhile_forallb isWhiteSpace (rev s)).
    rewrite forallb_forall in H. auto.
  - unfold trimEnd. rewrite <- rev_app_distr, takeWhile_dropWhile.
    now rewrite rev_involutive.
Qed.

Lemma scan_trim (s : jsstring) :
  scan_reference [] (trim s) = scan_reference [] s.
Proof.
  unfold trim. rewrite <- (scan_leading s). fold (trimStart s).
  destruct (trimEnd_split (trimStart s)) as (w & Hw & E).
  rewrite E at 2. now rewrite scan_trailing.
Qed.

Lemma scan_plain (cur s : jsstring) :
  whitespace_free s = true -> punctuation_free s = true ->
  scan_reference cur s = flush (cur ++ s).
Proof.
  unfold whitespace_free, punctuation_free.
  revert cur. induction s as [|c s IH]; intros cur Hw Hp; simpl in *.
  - now rewrite app_nil_r.
  - apply andb_prop in Hw. destruct Hw as [Hw1 Hw2].
    apply andb_prop in Hp. destruct Hp as [Hp1 Hp2].
    apply negb_true_iff in Hw1, Hp1. rewrite Hw1, Hp1.
    rewrite IH by assumption. now rewrite <- app_assoc.
Qed.

Lemma punctuation_not_whitespace (c : N) :
  isPunctuation c = true -> isWhiteSpace c = false.
Proof.
  unfold isPunctuation. intros H.
  repeat (apply orb_prop in H; destruct H as [H|H]);
    apply N.eqb_eq in H; subst c; reflexivity.
Qed.

(** Each text of the scanner is one punctuation mark, or a non-empty
    string free of punctuation and of white space. *)
Lemma scan_kinds (cur s : jsstring) :
  whitespace_free cur = true -> punctuation_free cur = true ->
  Forall (fun t =>
            (exists c, t = [c] /\ isPunctuation c = true) \/
            (t <> [] /\ punctuation_free t = true /\ whitespace_free t = true))
         (scan_reference cur s).
Proof.
  assert (Hflush : forall cur,
             whitespace_free cur = true -> punctuation_free cur = true ->
             Forall (fun t =>
                       (exists c, t = [c] /\ isPunctuation c = true) \/
                       (t <> [] /\ punctuation_free t = true /\
                        whitespace_free t = true))
                    (flush cur)).
  { intros [|c0 cur0] Hw Hp; simpl; constructor; [|constructor].
    right. repeat split; auto. discriminate. }
  revert cur. induction s as [|c s IH]; intros cur Hw Hp; simpl.
  - now apply Hflush.
  - destruct (isWhiteSpace c) eqn:Ew.
    + apply Forall_app. split; [now apply Hflush | now apply IH].
    + destruct (isPunctuation c) eqn:Ep.
      * apply Forall_app. split; [now apply Hflush|].
        constructor; [left; eauto | now apply IH].
      * apply IH; unfold whitespace_free, punctuation_free in *;
          rewrite forallb_app; simpl.
        -- now rewrite Hw, Ew.
        -- now rewrite Hp, Ep.
Qed.

Lemma scan_punctuation_count (cur s : jsstring) :
  punctuation_free cur = true ->
  length (filter is_punctuation_token (scan_reference cur s))
  = length (filter isPunctuation s).
Proof.
  assert (Hflush : forall cur, punctuation_free cur = true ->
                               filter is_punctuation_token (flush cur) = []).
  { intros [|c0 [|d0 cur0]] Hp; try reflexivity.
    unfold punctuation_free in Hp. simpl in *.
    destruct (isPunctuation c0); [discriminate | reflexivity]. }
  revert cur. induction s as [|c s IH]; intros cur Hp; simpl.
  - now rewrite Hflush.
  - destruct (isWhiteSpace c) eqn:Ew.
    + rewrite filter_app, (Hflush _ Hp). simpl. rewrite (IH [] eq_refl).
      destruct (isPunctuation c) eqn:Ep; [|reflexivity].
      apply punctuation_not_whitespace in Ep. congruence.
    + destruct (isPunctuation c) eqn:Ep.
      * rewrite filter_app, (Hflush _ Hp). simpl. rewrite Ep. simpl.
        now rewrite (IH [] eq_refl).
      * apply IH. unfold punctuation_free in *. rewrite forallb_app. simpl.
        now rewrite Hp, Ep.
Qed.

Lemma scan_length (cur s : jsstring) :
  length (scan_reference cur s) <= length (flush cur) + length s.
Proof.
  revert cur. induction s as [|c s IH]; intros cur; simpl; [lia|].
  destruct (isWhiteSpace c).
  - rewrite length_app. specialize (IH []). simpl in IH. lia.
  - destruct (isPunctuation c).
    + rewrite length_app. specialize (IH []). simpl in *. lia.
    + specialize (IH (cur ++ [c])).
      assert (length (flush (cur ++ [c])) <= 1)
        by (destruct (cur ++ [c]); simpl; lia).
      lia.
Qed.

Lemma pushed_texts (ts : list jsstring) :
  map text (Local.tokenizedResult (push_all ts initial)) = ts.
Proof. now rewrite push_all_texts. Qed.

Lemma filter_text_length (P : jsstring -> bool) (toks : list Token) :
  length (filter (fun tok => P (text tok)) toks)
  = length (filter P (map text toks)).
Proof.
  induction toks as [|t toks IH]; simpl; [reflexivity|].
  destruct (P (text t)); simpl; now rewrite IH.
Qed.

(* ===================================================================== *)
(** ** The words of the aggressive strategy *)
(* ===================================================================== *)

Lemma claude_texts_concat (w : jsstring) : concat (claude_texts w) = w.
Proof.
  destruct (Nat.le_gt_cases (length w) 4) as [H|H].
  - rewrite (claude_texts_short w H). simpl. apply app_nil_r.
  - destruct (claude_texts_long w H) as (a & b & -> & E & _).
    simpl. now rewrite app_nil_r.
Qed.

Lemma claude_texts_count (w : jsstring) :
  length (claude_texts w) = if length w <=? 4 then 1 else 2.
Proof.
  destruct (Nat.leb_spec (length w) 4) as [H|H].
  - now rewrite (claude_texts_short w H).
  - now destruct (claude_texts_long w H) as (a & b & -> & _).
Qed.

Lemma claude_count_app (A : list jsstring) (w : jsstring) :
  claude_count (A ++ [w]) = claude_count A + length (claude_texts w).
Proof.
  unfold claude_count. rewrite flat_map_app, length_app. simpl.
  now rewrite app_nil_r.
Qed.

Lemma strip_whitespace_nil (s : jsstring) :
  strip_whitespace s = [] -> whitespace_only s = true.
Proof.
  unfold strip_whitespace, whitespace_only.
  induction s as [|c s IH]; simpl; [reflexivity|].
  destruct (isWhiteSpace c); simpl; [exact IH | discriminate].
Qed.

Lemma strip_whitespace_app (a b : jsstring) :
  strip_whitespace (a ++ b) = strip_whitespace a ++ strip_whitespace b.
Proof. apply filter_app. Qed.

Lemma concat_all_empty (A : list jsstring) :
  existsb (fun w => 0 <? length w) A = false -> concat A = [].
Proof.
  induction A as [|w A IH]; simpl; [reflexivity|].
  intros H. apply orb_false_elim in H. destruct H as [Hw HA].
  destruct w; [now apply IH | discriminate].
Qed.

(** The words of [split] with the white-space pattern: none contains
    white space, together they are the input without its white space,
    and on an input that is not blank the callback pushes at most as
    many tokens as the input has code units. *)
Lemma split_whitespace_words (S : jsstring) :
  exists L, split re_whitespace S = Normal L /\
            concat L = strip_whitespace S /\
            Forall (fun w => whitespace_free w = true) L /\
            (whitespace_only S = false -> claude_count L <= length S).
Proof.
  destruct S as [|c0 r0] eqn:E.
  - exists [[]]. repeat split; try reflexivity.
    + constructor; [reflexivity | constructor].
    + discriminate.
  - rewrite <- E. assert (Hne : S <> []) by (rewrite E; discriminate).
    clear E.
    apply (@split_rule re_whitespace S
             (fun p q A =>
                concat A = strip_whitespace (firstn p S) /\
                Forall (fun w => whitespace_free w = true) A /\
                whitespace_free (substring S p q) = true /\
                claude_count A
                + (if existsb (fun w => 0 <? length w) A then 1 else 0) <= p)
             _ (re_whitespace_progressive S)).
    + intros p q A (HA & HF & Hs & Hn) Hpq Hm. repeat split; auto.
      apply m_plus_none in Hm; [|lia]. destruct Hm as (c & r & Hsk & Hw).
      assert (Hc : substring S q (q + 1) = [c])
        by (apply (skipn_cons_inv _ _ Hsk)).
      rewrite <- (substring_app S (p := p) (q := q) (r := q + 1)) by lia.
      unfold whitespace_free in *. rewrite forallb_app, Hs, Hc. simpl.
      now rewrite Hw.
    + intros p q A e caps (HA & HF & Hs & Hn) Hpq Hm.
      apply m_plus_some in Hm. destruct Hm as (-> & Hr & Hrun).
      assert (Hws : whitespace_only (substring S q e) = true)
        by (rewrite Hrun; apply takeWhile_forallb).
      rewrite app_nil_r. repeat split.
      * rewrite concat_app, HA. simpl. rewrite app_nil_r.
        rewrite <- (substring_prefix S e).
        rewrite <- (substring_app S (p := 0) (q := p) (r := e)) by lia.
        rewrite <- (substring_app S (p := p) (q := q) (r := e)) by lia.
        rewrite !strip_whitespace_app, substring_prefix.
        rewrite (strip_whitespace_free _ Hs), (strip_whitespace_only _ Hws).
        now rewrite app_nil_r.
      * rewrite Forall_app. split; [exact HF|].
        constructor; [exact Hs | constructor].
      * now rewrite substring_empty.
      * rewrite claude_count_app, claude_texts_count, existsb_app.
        cbn [existsb]. rewrite orb_false_r.
        assert (Hl := @substring_length S p q ltac:(lia)). rewrite Hl.
        unfold jsstring in *.
        destruct (existsb (fun w => 0 <? length w) A);
          destruct (Nat.ltb_spec 0 (q - p));
          destruct (Nat.leb_spec (q - p) 4); simpl; lia.
    + intros p A (HA & HF & Hs & Hn) Hp. repeat split.
      * rewrite concat_app, HA. simpl. rewrite app_nil_r.
        rewrite <- (strip_whitespace_free _ Hs), <- strip_whitespace_app.
        rewrite <- substring_prefix, substring_app by lia.
        now rewrite substring_whole.
      * rewrite Forall_app. split; [exact HF|].
        constructor; [exact Hs | constructor].
      * intros Hnb. rewrite claude_count_app, claude_texts_count.
        assert (Hl := @substring_length S p (length S) ltac:(lia)).
        rewrite Hl. unfold jsstring in *.
        destruct (Nat.eq_dec p (length S)) as [->|Hlt].
        -- rewrite firstn_all in HA.
           destruct (existsb (fun w => 0 <? length w) A) eqn:Hseen.
           ++ rewrite Nat.sub_diag. simpl. lia.
           ++ apply concat_all_empty in Hseen. rewrite Hseen in HA.
              symmetry in HA. apply strip_whitespace_nil in HA. congruence.
        -- destruct (existsb (fun w => 0 <? length w) A);
             destruct (Nat.leb_spec (length S - p) 4); lia.
    + exact Hne.
    + repeat split; [constructor | reflexivity].
Qed.

(** On an input without white space [split] returns the input as its
    one word. *)
Lemma split_whitespace_single (S : jsstring) :
  S <> [] -> whitespace_free S = true ->
  split re_whitespace S = Normal [S].
Proof.
  intros Hne Hw.
  destruct (@split_rule re_whitespace S
              (fun p q A => p = 0 /\ A = [])
              (fun L => L = [S])
              (re_whitespace_progressive S)) as (L & HL & ->); auto.
  - intros p q A e caps _ Hpq Hm. exfalso.
    apply m_plus_some in Hm. destruct Hm as (_ & Hr & Hrun).
    destruct (skipn_cons_lt S (proj2 Hpq)) as (c & r & Hsk).
    assert (Hc : isWhiteSpace c = true).
    { rewrite Hsk in Hrun. simpl in Hrun.
      destruct (isWhiteSpace c); [reflexivity|].
      apply (f_equal (@length N)) in Hrun.
      rewrite substring_length in Hrun by lia. simpl in Hrun. lia. }
    unfold whitespace_free in Hw. rewrite forallb_forall in Hw.
    assert (Hin : In c S).
    { rewrite <- (firstn_skipn q S), Hsk. apply in_or_app. right. now left. }
    apply Hw in Hin. rewrite Hc in Hin. discriminate.
  - intros p A (-> & ->) _. simpl. now rewrite substring_whole.
Qed.

(** A run of the aggressive strategy on an input that is not blank. *)
Lemma claude_run (s : jsstring) :
  whitespace_only s = false ->
  exists words,
    split re_whitespace s = Normal words /\
    Local.tokenizeText (VString s) Claude3
    = Normal (Local.tokenizedResult
                (push_all (flat_map claude_texts words) initial)).
Proof.
  intros Hnb.
  destruct (tokenizeText_cases s Claude3)
    as [(W & _)|[(_ & _ & words & Hs & _ & Hr)|(_ & Hm & _)]].
  - congruence.
  - eauto.
  - now contradiction Hm.
Qed.

(* ===================================================================== *)
(** ** Further properties of the tokenizer *)
(* ===================================================================== *)

Lemma concat_claude_texts (words : list jsstring) :
  concat (flat_map claude_texts words) = concat words.
Proof.
  induction words as [|w ws IH]; simpl; [reflexivity|].
  now rewrite concat_app, claude_texts_concat, IH.
Qed.

Lemma whitespace_free_substring (w : jsstring) (p q : nat) :
  whitespace_free w = true -> whitespace_free (substring w p q) = true.
Proof.
  unfold whitespace_free. rewrite !forallb_forall.
  intros H c Hin. apply H.
  destruct (substring_is_substring w p q) as (pre & post & E).
  rewrite E. apply in_or_app. right. apply in_or_app. now left.
Qed.

Lemma claude_texts_whitespace_free (w : jsstring) :
  whitespace_free w = true ->
  Forall (fun t => whitespace_free t = true) (claude_texts w).
Proof.
  intros H. unfold claude_texts.
  destruct (4 <? Z.of_nat (length w))%Z.
  - repeat constructor; apply whitespace_free_substring, H.
  - repeat constructor. exact H.
Qed.

Lemma whitespace_free_not_blank (s : jsstring) :
  s <> [] -> whitespace_free s = true -> whitespace_only s = false.
Proof.
  destruct s as [|c s]; [congruence|].
  unfold whitespace_free, whitespace_only. simpl.
  destruct (isWhiteSpace c); [discriminate | reflexivity].
Qed.

Lemma Math_ceil_div_nat (n : nat) :
  Z.to_nat (Math_ceil_div (Z.of_nat n) 2) = (n + 1) / 2.
Proof.
  apply Nat2Z.inj. rewrite Nat2Z.inj_div, Nat2Z.inj_add.
  assert (H := Math_ceil_div_half (Z.of_nat n)).
  rewrite Z2Nat.id by lia. simpl Z.of_nat.
  unfold Math_ceil_div in *. Z.div_mod_to_equations. lia.
Qed.

(** X1.  Under the aggressive strategy too, the token texts concatenated
    in order are the input without its white space. *)
Theorem claude3_concat_strips_whitespace (s : jsstring) :
  exists toks,
    Local.tokenizeText (VString s) (VString (lit "Claude-3")) = Normal toks /\
    concat (map text toks) = strip_whitespace s.
Proof.
  destruct (tokenizeText_cases s Claude3)
    as [(W & Hr)|[(_ & _ & words & Hs & _ & Hr)|(_ & Hm & _)]].
  - exists []. split; [exact Hr|]. now rewrite (strip_whitespace_only _ W).
  - eexists. split; [exact Hr|]. rewrite pushed_texts, concat_claude_texts.
    destruct (split_whitespace_words s) as (L & HL & Hc & _).
    rewrite HL in Hs. now injection Hs as <-.
  - now contradiction Hm.
Qed.

(** X2.  Whatever the model, no token text contains a white-space code
    unit. *)
Theorem token_text_has_no_whitespace (s : jsstring) (model : value) :
  exists toks,
    Local.tokenizeText (VString s) model = Normal toks /\
    Forall (fun tok => whitespace_free (text tok) = true) toks.
Proof.
  assert (Hmap : forall ts,
             Forall (fun t => whitespace_free t = true) ts ->
             Forall (fun tok => whitespace_free (text tok) = true)
                    (Local.tokenizedResult (push_all ts initial))).
  { intros ts H.
    apply Forall_map with (f := text) (P := fun t => whitespace_free t = true).
    now rewrite pushed_texts. }
  destruct (tokenizeText_cases s model)
    as [(W & Hr)|[(_ & _ & words & Hs & _ & Hr)|(_ & Hm & _)]].
  - exists []. split; [exact Hr | constructor].
  - eexists. split; [exact Hr|]. apply Hmap.
    destruct (split_whitespace_words s) as (L & HL & _ & HF & _).
    rewrite HL in Hs. injection Hs as <-.
    apply Forall_flat_map. revert HF. apply Forall_impl.
    intros w. apply claude_texts_whitespace_free.
  - eexists. split; [exact (gpt_run s Hm)|]. apply Hmap.
    assert (HK := scan_kinds [] s eq_refl eq_refl).
    revert HK. apply Forall_impl.
    intros t [(c & -> & Hc)|(_ & _ & Hw)]; [|exact Hw].
    unfold whitespace_free. simpl.
    now rewrite (punctuation_not_whitespace _ Hc).
Qed.

(** X3.  Under the punctuation-based strategy every token is either one
    punctuation mark of [. , ! ? ; :] or a non-empty text without any
    punctuation mark and without white space. *)
Theorem gpt_token_kinds (s : jsstring) (model : value) :
  model <> VString (lit "Claude-3") ->
  exists toks,
    Local.tokenizeText (VString s) model = Normal toks /\
    Forall (fun tok =>
              (exists c, text tok = [c] /\ isPunctuation c = true) \/
              (text tok <> [] /\ punctuation_free (text tok) = true /\
               whitespace_free (text tok) = true))
           toks.
Proof.
  intros Hm. eexists. split; [exact (gpt_run s Hm)|].
  apply Forall_map
    with (f := text)
         (P := fun t => (exists c, t = [c] /\ isPunctuation c = true) \/
                        (t <> [] /\ punctuation_free t = true /\
                         whitespace_free t = true)).
  rewrite pushed_texts. now apply scan_kinds.
Qed.

(** An instance at ["Hi, you!"] and model ["GPT-4"]. *)
Lemma gpt_token_kinds_witness :
  VString (lit "GPT-4") <> VString (lit "Claude-3") /\
  exists toks,
    Local.tokenizeText (VString (lit "Hi, you!")) (VString (lit "GPT-4"))
    = Normal toks /\
    Forall (fun tok =>
              (exists c, text tok = [c] /\ isPunctuation c = true) \/
              (text tok <> [] /\ punctuation_free (text tok) = true /\
               whitespace_free (text tok) = true))
           toks.
Proof.
  assert (H : VString (lit "GPT-4") <> VString (lit "Claude-3"))
    by (vm_compute; discriminate).
  split; [exact H|].
  apply (gpt_token_kinds (lit "Hi, you!") H).
Defined.

(** X4.  Whatever the model, a run gives at most as many tokens as the
    input has code units: the count shown as Tokens never exceeds the one
    shown as Characters. *)
Theorem token_count_le_char_count (s : jsstring) (model : value) :
  exists toks,
    Local.tokenizeText (VString s) model = Normal toks /\
    App.tokenCount toks <= App.charCount s.
Proof.
  unfold App.tokenCount, App.charCount.
  assert (Hlen : forall ts,
             length (Local.tokenizedResult (push_all ts initial)) = length ts).
  { intros ts. rewrite <- (length_map text). now rewrite pushed_texts. }
  destruct (tokenizeText_cases s model)
    as [(W & Hr)|[(W & _ & words & Hs & _ & Hr)|(_ & Hm & _)]].
  - exists []. split; [exact Hr | simpl; lia].
  - eexists. split; [exact Hr|]. rewrite Hlen.
    destruct (split_whitespace_words s) as (L & HL & _ & _ & Hn).
    rewrite HL in Hs. injection Hs as <-. exact (Hn W).
  - eexists. split; [exact (gpt_run s Hm)|]. rewrite Hlen.
    apply (scan_length [] s).
Qed.

(** X5.  Under the punctuation-based strategy a non-empty input without
    white space and without punctuation is one token, with id 1. *)
Theorem gpt_plain_input_single_token (s : jsstring) (model : value) :
  model <> VString (lit "Claude-3") ->
  s <> [] -> whitespace_free s = true -> punctuation_free s = true ->
  Local.tokenizeText (VString s) model = Normal [mkToken 1 s].
Proof.
  intros Hm Hne Hw Hp. rewrite (gpt_run s Hm), (@scan_plain [] s Hw Hp).
  destruct s; [congruence | reflexivity].
Qed.

(** An instance at ["hello"] and model ["GPT-4"]. *)
Lemma gpt_plain_input_single_token_witness :
  VString (lit "GPT-4") <> VString (lit "Claude-3") /\
  lit "hello" <> [] /\
  whitespace_free (lit "hello") = true /\
  punctuation_free (lit "hello") = true /\
  Local.tokenizeText (VString (lit "hello")) (VString (lit "GPT-4"))
  = Normal [mkToken 1 (lit "hello")].
Proof.
  assert (H1 : VString (lit "GPT-4") <> VString (lit "Claude-3"))
    by (vm_compute; discriminate).
  assert (H2 : lit "hello" <> []) by (vm_compute; discriminate).
  assert (H3 : whitespace_free (lit "hello") = true) by reflexivity.
  assert (H4 : punctuation_free (lit "hello") = true) by reflexivity.
  repeat (split; [assumption|]).
  apply (gpt_plain_input_single_token H1 H2 H3 H4).
Defined.

(** X6.  Under the punctuation-based strategy tokenizing composes over
    white space: the token texts of [a], one white-space code unit, [b]
    are those of [a] followed by those of [b]. *)
Theorem gpt_tokens_compose (a b : jsstring) (c : N) (model : value) :
  model <> VString (lit "Claude-3") ->
  isWhiteSpace c = true ->
  exists ta tb tab,
    Local.tokenizeText (VString a) model = Normal ta /\
    Local.tokenizeText (VString b) model = Normal tb /\
    Local.tokenizeText (VString (a ++ c :: b)) model = Normal tab /\
    map text tab = map text ta ++ map text tb.
Proof.
  intros Hm Hc. do 3 eexists.
  split; [exact (gpt_run a Hm)|]. split; [exact (gpt_run b Hm)|].
  split; [exact (gpt_run (a ++ c :: b) Hm)|].
  rewrite !pushed_texts. now apply scan_compose.
Qed.

(** An instance at ["Hi,"], a blank and ["you!"]. *)
Lemma gpt_tokens_compose_witness :
  VString (lit "GPT-4") <> VString (lit "Claude-3") /\
  isWhiteSpace 32 = true /\
  exists ta tb tab,
    Local.tokenizeText (VString (lit "Hi,")) (VString (lit "GPT-4"))
    = Normal ta /\
    Local.tokenizeText (VString (lit "you!")) (VString (lit "GPT-4"))
    = Normal tb /\
    Local.tokenizeText (VString (lit "Hi," ++ 32%N :: lit "you!"))
                       (VString (lit "GPT-4"))
    = Normal tab /\
    map text tab = map text ta ++ map text tb.
Proof.
  assert (H1 : VString (lit "GPT-4") <> VString (lit "Claude-3"))
    by (vm_compute; discriminate).
  assert (H2 : isWhiteSpace 32 = true) by reflexivity.
  split; [exact H1|]. split; [exact H2|].
  apply (@gpt_tokens_compose (lit "Hi,") (lit "you!") 32%N
           (VString (lit "GPT-4")) H1 H2).
Defined.

(** X7.  Under the punctuation-based strategy every punctuation mark of
    the input is a token of its own: there are as many one-mark tokens as
    the input has punctuation marks. *)
Theorem gpt_punctuation_count (s : jsstring) (model : value) :
  model <> VString (lit "Claude-3") ->
  exists toks,
    Local.tokenizeText (VString s) model = Normal toks /\
    length (filter (fun tok => is_punctuation_token (text tok)) toks)
    = length (filter isPunctuation s).
Proof.
  intros Hm. eexists. split; [exact (gpt_run s Hm)|].
  rewrite filter_text_length, pushed_texts.
  now apply scan_punctuation_count.
Qed.

(** An instance at ["Wait... what?!"] and model ["GPT-4"]. *)
Lemma gpt_punctuation_count_witness :
  VString (lit "GPT-4") <> VString (lit "Claude-3") /\
  exists toks,
    Local.tokenizeText (VString (lit "Wait... what?!")) (VString (lit "GPT-4"))
    = Normal toks /\
    length (filter (fun tok => is_punctuation_token (text tok)) toks)
    = length (filter isPunctuation (lit "Wait... what?!")).
Proof.
  assert (H : VString (lit "GPT-4") <> VString (lit "Claude-3"))
    by (vm_compute; discriminate).
  split; [exact H|].
  apply (gpt_punctuation_count (lit "Wait... what?!") H).
Defined.

(** X8.  Under the punctuation-based strategy white space around the
    input does not matter: the trimmed input gives the same tokens. *)
Theorem gpt_ignores_outer_whitespace (s : jsstring) (model : value) :
  model <> VString (lit "Claude-3") ->
  Local.tokenizeText (VString (trim s)) model
  = Local.tokenizeText (VString s) model.
Proof.
  intros Hm. now rewrite !(gpt_run _ Hm), scan_trim.
Qed.

(** An instance at ["  a, b "] and model ["GPT-4"]. *)
Lemma gpt_ignores_outer_whitespace_witness :
  VString (lit "GPT-4") <> VString (lit "Claude-3") /\
  Local.tokenizeText (VString (trim (lit "  a, b "))) (VString (lit "GPT-4"))
  = Local.tokenizeText (VString (lit "  a, b ")) (VString (lit "GPT-4")).
Proof.
  assert (H : VString (lit "GPT-4") <> VString (lit "Claude-3"))
    by (vm_compute; discriminate).
  split; [exact H|].
  apply (gpt_ignores_outer_whitespace (lit "  a, b ") H).
Defined.

(** X9.  Under the aggressive strategy a non-empty input without white
    space is one word: one token equal to it when it has at most 4 code
    units, otherwise its first [(length + 1) / 2] code units and the
    rest, with ids 1 and 2. *)
Theorem claude3_single_word (s : jsstring) :
  s <> [] -> whitespace_free s = true ->
  Local.tokenizeText (VString s) (VString (lit "Claude-3"))
  = Normal (if length s <=? 4 then [mkToken 1 s]
            else [mkToken 1 (firstn ((length s + 1) / 2) s);
                  mkToken 2 (skipn ((length s + 1) / 2) s)]).
Proof.
  intros Hne Hw.
  destruct (@claude_run s (whitespace_free_not_blank Hne Hw))
    as (words & Hs & Hr).
  rewrite (split_whitespace_single Hne Hw) in Hs. injection Hs as <-.
  fold Claude3. rewrite Hr. simpl. rewrite app_nil_r.
  destruct (Nat.leb_spec (length s) 4) as [H|H].
  - now rewrite (claude_texts_short s H).
  - unfold claude_texts.
    destruct (Z.ltb_spec 4 (Z.of_nat (length s))) as [_|Hle]; [|lia].
    cbv zeta. assert (Hm := Math_ceil_div_half (Z.of_nat (length s))).
    assert (Hr' : (0 <= Math_ceil_div (Z.of_nat (length s)) 2
                   <= Z.of_nat (length s))%Z) by lia.
    rewrite (slice_prefix s Hr'), (slice_suffix s Hr'), Math_ceil_div_nat.
    reflexivity.
Qed.

(** An instance at ["tokenizer"]. *)
Lemma claude3_single_word_witness :
  lit "tokenizer" <> [] /\
  whitespace_free (lit "tokenizer") = true /\
  Local.tokenizeText (VString (lit "tokenizer")) (VString (lit "Claude-3"))
  = Normal [mkToken 1 (lit "token"); mkToken 2 (lit "izer")].
Proof.
  assert (H1 : lit "tokenizer" <> []) by (vm_compute; discriminate).
  assert (H2 : whitespace_free (lit "tokenizer") = true) by reflexivity.
  split; [exact H1|]. split; [exact H2|].
  apply (claude3_single_word H1 H2).
Defined.

(* ===================================================================== *)
(** ** The vocabulary shown by the component *)
(* ===================================================================== *)

Lemma string_lt_irrefl (x : jsstring) : App.string_lt x x = false.
Proof.
  induction x as [|a x IH]; simpl; [reflexivity|].
  now rewrite N.ltb_irrefl.
Qed.

Lemma string_lt_trans (x y z : jsstring) :
  App.string_lt x y = true -> App.string_lt y z = true ->
  App.string_lt x z = true.
Proof.
  revert y z. induction x as [|a x IH]; intros [|b y] [|c z]; simpl;
    try discriminate; try reflexivity.
  destruct (N.ltb_spec a b), (N.ltb_spec b a), (N.ltb_spec b c),
    (N.ltb_spec c b), (N.ltb_spec a c), (N.ltb_spec c a);
    try discriminate; try reflexivity; try lia.
  apply IH.
Qed.

Lemma string_lt_total (x y : jsstring) :
  x <> y -> App.string_lt x y = false -> App.string_lt y x = true.
Proof.
  revert y. induction x as [|a x IH]; intros [|b y] Hne; simpl;
    try congruence.
  destruct (N.ltb_spec a b), (N.ltb_spec b a);
    try discriminate; try reflexivity; try lia.
  assert (a = b) by lia. subst b.
  apply IH. congruence.
Qed.

Lemma jsstring_eqb_eq (a b : jsstring) : jsstring_eqb a b = true <-> a = b.
Proof.
  unfold jsstring_eqb. destruct (list_eq_dec N.eq_dec a b); split;
    congruence.
Qed.

Lemma seen_In (x : jsstring) (seen : list jsstring) :
  existsb (jsstring_eqb x) seen = true <-> In x seen.
Proof.
  rewrite existsb_exists. split.
  - intros (y & Hin & E). apply jsstring_eqb_eq in E. now subst.
  - intros H. exists x. split; [exact H | now apply jsstring_eqb_eq].
Qed.

Section SetValues.

Let add (seen : list jsstring) (x : jsstring) : list jsstring :=
  if existsb (jsstring_eqb x) seen then seen else seen ++ [x].

Lemma add_spec (seen : list jsstring) (x t : jsstring) :
  In t (add seen x) <-> In t seen \/ t = x.
Proof.
  unfold add. destruct (existsb (jsstring_eqb x) seen) eqn:E.
  - apply seen_In in E. split; [tauto | intros [H| ->]; assumption].
  - rewrite in_app_iff. simpl. intuition congruence.
Qed.

Lemma add_NoDup (seen : list jsstring) (x : jsstring) :
  NoDup seen -> NoDup (add seen x).
Proof.
  intros H. unfold add. destruct (existsb (jsstring_eqb x) seen) eqn:E;
    [exact H|].
  apply NoDup_app; [exact H | repeat constructor; intros [] |].
  intros t Hin [<-|[]]. apply seen_In in Hin. congruence.
Qed.

Lemma add_length (seen : list jsstring) (x : jsstring) :
  length seen <= length (add seen x) <= length seen + 1.
Proof.
  unfold add. destruct (existsb (jsstring_eqb x) seen); [lia|].
  rewrite length_app. simpl. lia.
Qed.

Lemma fold_add_spec (xs seen : list jsstring) (t : jsstring) :
  In t (fold_left add xs seen) <-> In t seen \/ In t xs.
Proof.
  revert seen. induction xs as [|x xs IH]; intros seen; simpl; [tauto|].
  rewrite IH, add_spec. intuition (subst; auto).
Qed.

Lemma fold_add_NoDup (xs seen : list jsstring) :
  NoDup seen -> NoDup (fold_left add xs seen).
Proof.
  revert seen. induction xs as [|x xs IH]; intros seen H; simpl; [exact H|].
  apply IH, add_NoDup, H.
Qed.

Lemma fold_add_length (xs seen : list jsstring) :
  length seen <= length (fold_left add xs seen) <= length seen + length xs.
Proof.
  revert seen. induction xs as [|x xs IH]; intros seen; simpl; [lia|].
  specialize (IH (add seen x)). assert (H := add_length seen x). lia.
Qed.

End SetValues.

Lemma Set_values_In (xs : list jsstring) (t : jsstring) :
  In t (App.Set_values xs) <-> In t xs.
Proof. unfold App.Set_values. rewrite fold_add_spec. simpl. tauto. Qed.

Lemma Set_values_NoDup (xs : list jsstring) : NoDup (App.Set_values xs).
Proof. apply fold_add_NoDup. constructor. Qed.

Lemma Set_values_length (xs : list jsstring) :
  length (App.Set_values xs) <= length xs.
Proof. apply (fold_add_length xs []). Qed.

Lemma sort_insert_In (x t : jsstring) (l : list jsstring) :
  In t (App.sort_insert x l) <-> t = x \/ In t l.
Proof.
  induction l as [|y l IH]; simpl.
  - intuition.
  - destruct (App.string_lt x y); simpl; [|rewrite IH]; intuition.
Qed.

Lemma sort_insert_length (x : jsstring) (l : list jsstring) :
  length (App.sort_insert x l) = Datatypes.S (length l).
Proof.
  induction l as [|y l IH]; simpl; [reflexivity|].
  destruct (App.string_lt x y); simpl; [reflexivity | now rewrite IH].
Qed.

Lemma sort_insert_sorted (x : jsstring) (l : list jsstring) :
  StronglySorted (fun a b => App.string_lt a b = true) l ->
  ~ In x l ->
  StronglySorted (fun a b => App.string_lt a b = true) (App.sort_insert x l).
Proof.
  induction 1 as [|y l Hs IH Hy]; intros Hnin; simpl.
  - repeat constructor.
  - destruct (App.string_lt x y) eqn:E.
    + constructor; [now constructor|].
      constructor; [exact E|].
      revert Hy. apply Forall_impl. intros z. now apply string_lt_trans.
    + constructor.
      * apply IH. intros Hin. apply Hnin. now right.
      * apply Forall_forall. intros z Hz. apply sort_insert_In in Hz.
        destruct Hz as [->|Hz].
        -- apply string_lt_total; [|exact E].
           intros ->. apply Hnin. now left.
        -- rewrite Forall_forall in Hy. now apply Hy.
Qed.

Lemma fold_sort_insert (xs acc : list jsstring) :
  StronglySorted (fun a b => App.string_lt a b = true) acc ->
  NoDup xs -> (forall t, In t xs -> ~ In t acc) ->
  StronglySorted (fun a b => App.string_lt a b = true)
                 (fold_left (fun sorted x => App.sort_insert x sorted) xs acc).
Proof.
  revert acc. induction xs as [|x xs IH]; intros acc Hs Hnd Hfresh; simpl.
  - exact Hs.
  - inversion Hnd as [|? ? Hx Hnd']; subst. apply IH.
    + apply sort_insert_sorted; [exact Hs|]. apply Hfresh. now left.
    + exact Hnd'.
    + intros t Ht Hin. apply sort_insert_In in Hin. destruct Hin as [->|Hin].
      * contradiction.
      * apply (Hfresh t); [now right | exact Hin].
Qed.

Lemma fold_sort_insert_In (xs acc : list jsstring) (t : jsstring) :
  In t (fold_left (fun sorted x => App.sort_insert x sorted) xs acc)
  <-> In t acc \/ In t xs.
Proof.
  revert acc. induction xs as [|x xs IH]; intros acc; simpl; [tauto|].
  rewrite IH, sort_insert_In. intuition congruence.
Qed.

Lemma fold_sort_insert_length (xs acc : list jsstring) :
  length (fold_left (fun sorted x => App.sort_insert x sorted) xs acc)
  = length acc + length xs.
Proof.
  revert acc. induction xs as [|x xs IH]; intros acc; simpl; [lia|].
  rewrite IH, sort_insert_length. lia.
Qed.

(** X10.  The vocabulary is strictly increasing in the order of the
    default [sort] (code unit by code unit, a proper prefix first): every
    entry is smaller than every later one, so no text is listed twice. *)
Theorem vocabulary_strictly_sorted (toks : list Token) :
  StronglySorted (fun a b => App.string_lt a b = true) (App.vocabulary toks).
Proof.
  unfold App.vocabulary, App.Array_sort. apply fold_sort_insert.
  - constructor.
  - apply Set_values_NoDup.
  - intros t _ [].
Qed.

(** X11.  The vocabulary lists exactly the texts of the tokens: a string
    is in it if and only if some token has it as its text. *)
Theorem vocabulary_members (toks : list Token) (t : jsstring) :
  In t (App.vocabulary toks) <-> exists tok, In tok toks /\ text tok = t.
Proof.
  unfold App.vocabulary, App.Array_sort.
  rewrite fold_sort_insert_In, Set_values_In, in_map_iff. simpl.
  split.
  - intros [[]|(tok & E & Hin)]. eauto.
  - intros (tok & Hin & E). right. eauto.
Qed.

(** X12.  The vocabulary is never longer than the token list, and it is
    empty exactly when there is no token: the Vocabulary section is
    rendered exactly when the Token Visualization is. *)
Theorem vocabulary_size (toks : list Token) :
  length (App.vocabulary toks) <= App.tokenCount toks /\
  (App.vocabulary toks = [] <-> toks = []).
Proof.
  unfold App.vocabulary, App.Array_sort, App.tokenCount.
  rewrite fold_sort_insert_length. simpl.
  assert (Hl := Set_values_length (map text toks)).
  rewrite length_map in Hl. split; [exact Hl|]. split.
  - intros E. destruct toks as [|tok toks]; [reflexivity|]. exfalso.
    assert (Hin : In (text tok)
                     (fold_left (fun sorted x => App.sort_insert x sorted)
                        (App.Set_values (map text (tok :: toks))) [])).
    { apply fold_sort_insert_In. right. apply Set_values_In. now left. }
    rewrite E in Hin. exact Hin.
  - intros ->. reflexivity.
Qed.

(* ===================================================================== *)
(** ** The component: tokens follow the text and the model *)
(* ===================================================================== *)

Lemma effect_in_sync (st : App.state) :
  exists st', App.effect st = Normal st' /\ in_sync st' /\
              App.text st' = App.text st /\
              App.selectedModel st' = App.selectedModel st.
Proof.
  unfold App.effect.
  destruct (tokenizeText_pushes (App.text st) (VString (App.selectedModel st)))
    as (ts & Hr & _).
  rewrite Hr. cbn [bind]. eexists. split; [reflexivity|].
  repeat split. exact Hr.
Qed.

Lemma step_in_sync (st : App.state) (ev : App.event) :
  in_sync st -> exists st', App.step st ev = Normal st' /\ in_sync st'.
Proof.
  intros Hinv. unfold App.step.
  destruct (App.deps_changed st (App.handle ev st)) eqn:D.
  - destruct (effect_in_sync (App.handle ev st)) as (st' & H1 & H2 & _).
    eauto.
  - eexists. split; [reflexivity|].
    unfold App.deps_changed in D. apply orb_false_elim in D.
    destruct D as [Dt Dm]. apply negb_false_iff in Dt, Dm.
    apply jsstring_eqb_eq in Dt, Dm. unfold in_sync in *.
    rewrite <- Dt, <- Dm.
    destruct ev as [v| |index|checked|v]; simpl in *; try exact Hinv.
    + rewrite Dt. reflexivity.
    + destruct (nth_error App.examples index); exact Hinv.
Qed.

(** X13.  From its mount and through every sequence of user events the
    component never fails, and after each event the tokens it holds are
    the tokens of the text and model it holds. *)
Theorem session_tokens_in_sync (events : list App.event) :
  exists st,
    App.session events = Normal st /\
    Local.tokenizeText (VString (App.text st))
                       (VString (App.selectedModel st))
    = Normal (App.tokens st).
Proof.
  unfold App.session, App.mount.
  destruct (effect_in_sync {| App.text := []; App.selectedModel := lit "GPT-4";
                              App.showText := true; App.tokens := [] |})
    as (st0 & H0 & Hinv & _).
  rewrite H0. cbn [bind]. clear H0. fold (in_sync st0) in Hinv.
  revert st0 Hinv. induction events as [|ev events IH]; intros st Hinv.
  - exists st. split; [reflexivity | exact Hinv].
  - destruct (step_in_sync ev Hinv) as (st' & Hs & Hinv').
    simpl. rewrite Hs. cbn [bind]. now apply IH.
Qed.

(* ===================================================================== *)
(** ** Further properties of the network-backed variant *)
(* ===================================================================== *)

Section FrontendFacts.

Variable toLowerCase : jsstring -> jsstring.
Variable JSON_stringify : value -> jsstring.
Variable fetch : Frontend.request -> completion Frontend.response.

(** X14.  On a string input the promise of the network-backed
    [tokenizeText] is never rejected, whatever the model value, the
    remote end and the response: it is fulfilled, or still pending when
    the remote end does not answer.  Every error is caught. *)
Theorem frontend_never_rejects (s : jsstring) (model : value)
  (w : Frontend.world) :
  (exists v,
     fst (Frontend.tokenizeText toLowerCase JSON_stringify fetch
            (VString s) model w) = Normal v) \/
  fst (Frontend.tokenizeText toLowerCase JSON_stringify fetch
         (VString s) model w) = Diverge.
Proof.
  unfold Frontend.tokenizeText, Frontend.mbind, Frontend.await.
  cbn [call_string_method].
  destruct (negb (ToBoolean (VString (trim s)))); [left; eexists; reflexivity|].
  unfold Frontend.try_finally, Frontend.try_catch, Frontend.setLoading.
  destruct model; cbn [call_string_method fst snd];
    try (left; eexists; reflexivity).
  destruct (fetch _) as [resp|e'|];
    try (left; eexists; reflexivity); try (right; reflexivity).
  destruct (Frontend.ok resp); cbn [negb]; try (left; eexists; reflexivity).
  destruct (Frontend.json resp) as [data|e'|];
    try (left; eexists; reflexivity); try (right; reflexivity).
  destruct (Frontend.get_tokens data); try (left; eexists; reflexivity).
  right; reflexivity.
Qed.


(** X16.  After a call on an input that is not blank the loading flag is
    on exactly when the promise is still pending: however the call
    settles, [finally] has switched the flag off. *)
Theorem frontend_loading_flag (s : jsstring) (model : value)
  (w : Frontend.world) :
  trim s <> [] ->
  Frontend.loading (snd (Frontend.tokenizeText toLowerCase JSON_stringify fetch
    (VString s) model w))
  = match fst (Frontend.tokenizeText toLowerCase JSON_stringify fetch
    (VString s) model w) with
    | Diverge => true
    | _ => false
    end.
Proof.
  intros H. unfold Frontend.tokenizeText, Frontend.mbind, Frontend.await.
  cbn [call_string_method].
  destruct (trim s) as [|c r] eqn:E; [congruence|]. cbn [ToBoolean length Nat.eqb negb].
  unfold Frontend.try_finally, Frontend.try_catch, Frontend.setLoading.
  destruct model; cbn [call_string_method fst snd]; try reflexivity.
  destruct (fetch _) as [resp|e'|]; try reflexivity.
  destruct (Frontend.ok resp); cbn [negb]; try reflexivity.
  destruct (Frontend.json resp) as [data|e'|]; try reflexivity.
  destruct (Frontend.get_tokens data); reflexivity.
Qed.

(** X17.  When the response is ok and its JSON body has a truthy
    [tokens] value, the call returns that value as it is, logs nothing
    and leaves the loading flag off. *)
Theorem frontend_success (s m : jsstring) (w : Frontend.world)
  (resp : Frontend.response) (data tokens : value) :
  trim s <> [] ->
  fetch (Frontend.tokenize_request JSON_stringify (VString s) (toLowerCase m))
  = Normal resp ->
  Frontend.ok resp = true ->
  Frontend.json resp = Normal data ->
  Frontend.get_tokens data = Normal tokens ->
  ToBoolean tokens = true ->
  Frontend.tokenizeText toLowerCase JSON_stringify fetch
    (VString s) (VString m) w
  = (Normal tokens,
     {| Frontend.loading := false; Frontend.console := Frontend.console w |}).
Proof.
  intros H Hf Hok Hj Hg Ht.
  unfold Frontend.tokenizeText, Frontend.mbind, Frontend.await.
  cbn [call_string_method].
  destruct (trim s) as [|c r] eqn:E; [congruence|]. cbn [ToBoolean length Nat.eqb negb].
  unfold Frontend.try_finally, Frontend.try_catch, Frontend.setLoading.
  cbn [fst snd]. rewrite Hf, Hok. cbn [negb]. rewrite Hj, Hg.
  unfold Frontend.ret, Frontend.logical_or. now rewrite Ht.
Qed.

(** X18.  When [fetch] rejects with [e], when the response is not ok
    ([e] is then the error made by the function), or when reading the
    body as JSON rejects with [e], the call returns the empty array,
    logs that one error with its message and leaves the loading flag
    off. *)
Theorem frontend_error_logged (s m : jsstring) (w : Frontend.world)
  (e : error) :
  trim s <> [] ->
  (let r := fetch (Frontend.tokenize_request JSON_stringify (VString s)
                     (toLowerCase m)) in
   r = Throw e \/
   (exists resp, r = Normal resp /\ Frontend.ok resp = false /\
                 e = ErrorMsg "Failed to tokenize text") \/
   (exists resp, r = Normal resp /\ Frontend.ok resp = true /\
                 Frontend.json resp = Throw e)) ->
  Frontend.tokenizeText toLowerCase JSON_stringify fetch
    (VString s) (VString m) w
  = (Normal (VArray []),
     {| Frontend.loading := false;
        Frontend.console := Frontend.console w ++ [(error_message, e)] |}).
Proof.
  intros H Hr.
  unfold Frontend.tokenizeText, Frontend.mbind, Frontend.await.
  cbn [call_string_method].
  destruct (trim s) as [|c r] eqn:E; [congruence|]. cbn [ToBoolean length Nat.eqb negb].
  unfold Frontend.try_finally, Frontend.try_catch, Frontend.setLoading.
  cbn [fst snd].
  destruct Hr as [Hr|[(resp & Hr & Hok & ->)|(resp & Hr & Hok & Hj)]];
    rewrite Hr; [| rewrite Hok | rewrite Hok; cbn [negb]; rewrite Hj];
    reflexivity.
Qed.

(** X19.  When the response is ok and the [tokens] value of its JSON
    body is missing or falsy ([undefined], [null], [false], [0], [NaN] or
    the empty string), the call returns the empty array and logs
    nothing. *)
Theorem frontend_falsy_tokens (s m : jsstring) (w : Frontend.world)
  (resp : Frontend.response) (data tokens : value) :
  trim s <> [] ->
  fetch (Frontend.tokenize_request JSON_stringify (VString s) (toLowerCase m))
  = Normal resp ->
  Frontend.ok resp = true ->
  Frontend.json resp = Normal data ->
  Frontend.get_tokens data = Normal tokens ->
  ToBoolean tokens = false ->
  Frontend.tokenizeText toLowerCase JSON_stringify fetch
    (VString s) (VString m) w
  = (Normal (VArray []),
     {| Frontend.loading := false; Frontend.console := Frontend.console w |}).
Proof.
  intros H Hf Hok Hj Hg Ht.
  unfold Frontend.tokenizeText, Frontend.mbind, Frontend.await.
  cbn [call_string_method].
  destruct (trim s) as [|c r] eqn:E; [congruence|]. cbn [ToBoolean length Nat.eqb negb].
  unfold Frontend.try_finally, Frontend.try_catch, Frontend.setLoading.
  cbn [fst snd]. rewrite Hf, Hok. cbn [negb]. rewrite Hj, Hg.
  unfold Frontend.ret, Frontend.logical_or. now rewrite Ht.
Qed.

End FrontendFacts.


(** An instance with a remote end that never answers. *)
Lemma frontend_loading_flag_witness :
  trim (lit "hi") <> [] /\
  Frontend.loading
    (snd (Frontend.tokenizeText (fun m => m) (fun _ => []) (fun _ => Diverge)
            (VString (lit "hi")) (VString (lit "GPT-4"))
            {| Frontend.loading := false; Frontend.console := [] |}))
  = match
      fst (Frontend.tokenizeText (fun m => m) (fun _ => []) (fun _ => Diverge)
             (VString (lit "hi")) (VString (lit "GPT-4"))
             {| Frontend.loading := false; Frontend.console := [] |})
    with
    | Diverge => true
    | _ => false
    end.
Proof.
  assert (H : trim (lit "hi") <> []) by (vm_compute; discriminate).
  split; [exact H|].
  apply (@frontend_loading_flag (fun m => m) (fun _ => []) (fun _ => Diverge)
           (lit "hi") (VString (lit "GPT-4"))
           {| Frontend.loading := false; Frontend.console := [] |} H).
Defined.

(** An instance with a response that carries one token. *)
Lemma frontend_success_witness :
  Frontend.tokenizeText (fun m => m) (fun _ => [])
    (fun _ => Normal
       {| Frontend.ok := true;
          Frontend.json :=
            Normal (VObject
                      [(lit "tokens",
                        VArray [VObject [(lit "id", VNumber (Finite false 1 0));
                                         (lit "text", VString (lit "hi"))]])]) |})
    (VString (lit "hi")) (VString (lit "GPT-4"))
    {| Frontend.loading := false; Frontend.console := [] |}
  = (Normal (VArray [VObject [(lit "id", VNumber (Finite false 1 0));
                              (lit "text", VString (lit "hi"))]]),
     {| Frontend.loading := false; Frontend.console := [] |}).
Proof.
  eapply (@frontend_success (fun m => m) (fun _ => [])
           (fun _ => Normal
              {| Frontend.ok := true;
                 Frontend.json :=
                   Normal (VObject
                             [(lit "tokens",
                               VArray [VObject [(lit "id", VNumber (Finite false 1 0));
                                                (lit "text", VString (lit "hi"))]])]) |})
           (lit "hi") (lit "GPT-4")
           {| Frontend.loading := false; Frontend.console := [] |});
    try reflexivity.
  vm_compute. discriminate.
Defined.

(** An instance when [fetch] rejects with a network error. *)
Lemma frontend_error_logged_witness :
  Frontend.tokenizeText (fun m => m) (fun _ => []) (fun _ => Throw NetworkError)
    (VString (lit "hi")) (VString (lit "GPT-4"))
    {| Frontend.loading := false; Frontend.console := [] |}
  = (Normal (VArray []),
     {| Frontend.loading := false;
        Frontend.console := [(error_message, NetworkError)] |}).
Proof.
  apply (@frontend_error_logged (fun m => m) (fun _ => [])
           (fun _ => Throw NetworkError) (lit "hi") (lit "GPT-4")
           {| Frontend.loading := false; Frontend.console := [] |}
           NetworkError).
  - vm_compute. discriminate.
  - left. reflexivity.
Defined.

(** An instance with a response whose body is an object without
    properties. *)
Lemma frontend_falsy_tokens_witness :
  Frontend.tokenizeText (fun m => m) (fun _ => [])
    (fun _ => Normal {| Frontend.ok := true;
                        Frontend.json := Normal (VObject []) |})
    (VString (lit "hi")) (VString (lit "GPT-4"))
    {| Frontend.loading := false; Frontend.console := [] |}
  = (Normal (VArray []),
     {| Frontend.loading := false; Frontend.console := [] |}).
Proof.
  eapply (@frontend_falsy_tokens (fun m => m) (fun _ => [])
           (fun _ => Normal {| Frontend.ok := true;
                               Frontend.json := Normal (VObject []) |})
           (lit "hi") (lit "GPT-4")
           {| Frontend.loading := false; Frontend.console := [] |});
    try reflexivity.
  vm_compute. discriminate.
Defined.

(* ===================================================================== *)
(** ** Empty tokens of the aggressive strategy *)
(* ===================================================================== *)

Lemma takeWhile_of_dropWhile (f : N -> bool) (X : jsstring) :
  takeWhile f (dropWhile f X) = [].
Proof.
  induction X as [|c X IH]; simpl; [reflexivity|].
  destruct (f c) eqn:E; [exact IH|]. simpl. now rewrite E.
Qed.

Lemma skipn_takeWhile (f : N -> bool) (X : jsstring) :
  skipn (length (takeWhile f X)) X = dropWhile f X.
Proof.
  induction X as [|c X IH]; simpl; [reflexivity|].
  destruct (f c); simpl; [exact IH | reflexivity].
Qed.

Lemma dropWhile_length (f : N -> bool) (X : jsstring) :
  length (dropWhile f X) <= length X.
Proof.
  induction X as [|c X IH]; simpl; [lia|].
  destruct (f c); simpl; lia.
Qed.

(** The run matched by [[...]+] is maximal: the pattern does not match
    again where the run ends. *)
Lemma m_plus_maximal (f : N -> bool) (S : jsstring) (q e : nat)
  (caps : list jsstring) :
  m_plus f S q = Some (e, caps) -> m_plus f S e = None.
Proof.
  intros H. unfold m_plus in H.
  destruct (length (takeWhile f (skipn q S))) as [|n] eqn:E; [discriminate|].
  injection H as <- _. unfold m_plus.
  rewrite <- E, Nat.add_comm, <- skipn_skipn, skipn_takeWhile.
  now rewrite takeWhile_of_dropWhile.
Qed.

(** A non-empty string that [trim] leaves as it is starts and ends with
    a code unit that is not white space. *)
Lemma trimmed_ends (s : jsstring) :
  s <> [] -> trim s = s ->
  (exists c r, s = c :: r /\ isWhiteSpace c = false) /\
  (exists r c, s = r ++ [c] /\ isWhiteSpace c = false).
Proof.
  intros Hne Ht.
  assert (Hfirst : exists c r, s = c :: r /\ isWhiteSpace c = false).
  { destruct s as [|c r]; [congruence|]. exists c, r. split; [reflexivity|].
    destruct (isWhiteSpace c) eqn:E; [exfalso | reflexivity].
    apply (f_equal (@length N)) in Ht.
    unfold trim, trimEnd, trimStart in Ht. rewrite length_rev in Ht.
    simpl in Ht. rewrite E in Ht.
    assert (H1 := dropWhile_length isWhiteSpace
                    (rev (dropWhile isWhiteSpace r))).
    rewrite length_rev in H1.
    assert (H2 := dropWhile_length isWhiteSpace r). lia. }
  split; [exact Hfirst|].
  destruct Hfirst as (c & r & -> & Hc).
  unfold trim, trimStart in Ht. simpl in Ht. rewrite Hc in Ht.
  unfold trimEnd in Ht.
  destruct (rev (c :: r)) as [|d t] eqn:Er.
  - apply (f_equal (@length N)) in Er. rewrite length_rev in Er.
    discriminate.
  - exists (rev t), d.
    assert (Es : c :: r = rev t ++ [d]).
    { rewrite <- (rev_involutive (c :: r)), Er. reflexivity. }
    split; [exact Es|].
    destruct (isWhiteSpace d) eqn:E; [exfalso | reflexivity].
    simpl in Ht. rewrite E in Ht.
    apply (f_equal (@length N)) in Ht. rewrite length_rev in Ht.
    assert (H1 := dropWhile_length isWhiteSpace t).
    apply (f_equal (@length N)) in Es. rewrite length_app, length_rev in Es.
    simpl in Es, Ht. lia.
Qed.

(** Between a first and a last code unit that are not white space every
    word of [split] is non-empty. *)
Lemma split_whitespace_nonempty_words (S : jsstring) :
  (exists c r, S = c :: r /\ isWhiteSpace c = false) ->
  (exists r c, S = r ++ [c] /\ isWhiteSpace c = false) ->
  exists L, split re_whitespace S = Normal L /\ Forall (fun w => w <> []) L.
Proof.
  intros (c1 & r1 & E1 & Hc1) (r2 & c2 & E2 & Hc2).
  assert (Hne : S <> []) by (rewrite E1; discriminate).
  assert (Hlen : 0 < length S) by (rewrite E1; simpl; lia).
  assert (Hword : forall p q, p < q <= length S -> substring S p q <> []).
  { intros p q Hpq E0. apply (f_equal (@length N)) in E0.
    rewrite substring_length in E0 by lia. simpl in E0. lia. }
  apply (@split_rule re_whitespace S
           (fun p q A =>
              Forall (fun w => w <> []) A /\ p < length S /\
              (p = q -> re_whitespace S p = None))
           _ (re_whitespace_progressive S)).
  - intros p q A (HF & Hp & _) Hpq _. repeat split; auto. lia.
  - intros p q A e caps (HF & Hp & Hstart) Hpq Hm.
    assert (Hmax := m_plus_maximal _ _ _ Hm).
    assert (Hpq' : p < q).
    { destruct (Nat.eq_dec p q) as [->|]; [|lia].
      rewrite (Hstart eq_refl) in Hm. discriminate. }
    apply m_plus_some in Hm. destruct Hm as (-> & Hr & Hrun).
    rewrite app_nil_r. repeat split.
    + rewrite Forall_app. split; [exact HF|].
      constructor; [apply Hword; lia | constructor].
    + destruct (Nat.eq_dec e (length S)) as [->|]; [exfalso | lia].
      assert (Hws : whitespace_only (substring S q (length S)) = true)
        by (rewrite Hrun; apply takeWhile_forallb).
      unfold whitespace_only in Hws. rewrite forallb_forall in Hws.
      assert (Hin : In c2 (substring S q (length S))).
      { unfold substring. rewrite firstn_all2 by (rewrite length_skipn; lia).
        rewrite E2, skipn_app. apply in_or_app. right.
        rewrite E2, length_app in Hpq. simpl in Hpq.
        replace (q - length r2) with 0 by lia. now left. }
      apply Hws in Hin. congruence.
    + intros _. exact Hmax.
  - intros p A (HF & Hp & _) _. rewrite Forall_app. split; [exact HF|].
    constructor; [apply Hword; lia | constructor].
  - exact Hne.
  - repeat split; [constructor | exact Hlen |].
    intros _. unfold re_whitespace, m_plus. rewrite E1. simpl.
    now rewrite Hc1.
Qed.

Lemma claude_texts_nonempty (w : jsstring) :
  w <> [] -> Forall (fun t => t <> []) (claude_texts w).
Proof.
  intros Hne. destruct (Nat.le_gt_cases (length w) 4) as [H|H].
  - rewrite (claude_texts_short w H). repeat constructor. exact Hne.
  - destruct (claude_texts_long w H) as (a & b & -> & E & Hcut).
    apply (f_equal (@length N)) in E. rewrite length_app in E.
    repeat constructor; intros ->; simpl in *; lia.
Qed.

(** X20.  Under the aggressive strategy a non-empty input that [trim]
    leaves as it is (no white space at either end) gives no token with
    the empty text. *)
Theorem claude3_trimmed_no_empty_token (s : jsstring) :
  s <> [] -> trim s = s ->
  exists toks,
    Local.tokenizeText (VString s) (VString (lit "Claude-3")) = Normal toks /\
    Forall (fun tok => text tok <> []) toks.
Proof.
  intros Hne Ht.
  destruct (trimmed_ends Hne Ht) as [Hfirst Hlast].
  assert (Hnb : whitespace_only s = false).
  { destruct Hfirst as (c & r & -> & Hc). unfold whitespace_only. simpl.
    now rewrite Hc. }
  destruct (@claude_run s Hnb) as (words & Hs & Hr).
  destruct (split_whitespace_nonempty_words Hfirst Hlast) as (L & HL & HF).
  rewrite HL in Hs. injection Hs as <-.
  eexists. split; [exact Hr|].
  apply Forall_map with (f := text) (P := fun t => t <> []).
  rewrite pushed_texts. apply Forall_flat_map.
  revert HF. apply Forall_impl. intros w. apply claude_texts_nonempty.
Qed.

(** An instance at ["hello world"]. *)
Lemma claude3_trimmed_no_empty_token_witness :
  lit "hello world" <> [] /\
  trim (lit "hello world") = lit "hello world" /\
  exists toks,
    Local.tokenizeText (VString (lit "hello world")) (VString (lit "Claude-3"))
    = Normal toks /\
    Forall (fun tok => text tok <> []) toks.
Proof.
  assert (H1 : lit "hello world" <> []) by (vm_compute; discriminate).
  assert (H2 : trim (lit "hello world") = lit "hello world") by reflexivity.
  split; [exact H1|]. split; [exact H2|].
  apply (claude3_trimmed_no_empty_token H1 H2).
Defined.
